(** * ts-graphql-script-builder: the SchemaBuilder selection engine

    A shallow embedding of [src/index.ts]: the text helper
    [camelToSnakeCase], the class [SchemaBuilder] (registry construction,
    the mutators, [build]) and the static [createScript], followed by the
    properties of the written specification that concern them.

    Conventions of the embedding.
    - A JavaScript [Set<string>] is a duplicate-free [list string] in
      insertion order; a [Map<string, V>] is a [list (string * V)] with
      unique keys in insertion order ([Map.set] on a present key keeps
      its position).
    - Text is [string]; the case mappings act on ASCII letters.
    - A [SchemaBuilder] object is a record; a method that mutates [this]
      and returns it is a function to the new record.  Objects that are
      passed by reference live in a [heap], and a call names its receiver
      and its arguments by their index there.
    - A [BuilderInit] is caller code and may throw, so it returns a
      [result]; so does every method that calls one. *)

From Stdlib Require Import Ascii String.
From stdpp Require Import base option list strings.

Set Warnings "-register-all".

Local Open Scope string_scope.
Local Open Scope list_scope.
Local Open Scope stdpp_scope.

(** ** Errors *)

Inductive result (A : Type) : Type :=
| Ok (a : A)
| Err (msg : string).
Arguments Ok {A} a.
Arguments Err {A} msg.

Definition rbind {A B} (r : result A) (k : A -> result B) : result B :=
  match r with
  | Ok a => k a
  | Err msg => Err msg
  end.

Notation "x <-! r ;; k" := (rbind r (fun x => k))
  (at level 100, r at next level, right associativity, only parsing).

(** ** Text *)

Module Text.

Definition newline : string := String "010"%char EmptyString.

Definition isUpper (c : ascii) : bool :=
  let n := nat_of_ascii c in (65 <=? n)%nat && (n <=? 90)%nat.

Definition isLower (c : ascii) : bool :=
  let n := nat_of_ascii c in (97 <=? n)%nat && (n <=? 122)%nat.

Definition upperChar (c : ascii) : ascii :=
  if isLower c then ascii_of_nat (nat_of_ascii c - 32) else c.

Definition lowerChar (c : ascii) : ascii :=
  if isUpper c then ascii_of_nat (nat_of_ascii c + 32) else c.

Fixpoint mapChars (f : ascii -> ascii) (s : string) : string :=
  match s with
  | EmptyString => EmptyString
  | String c s' => String (f c) (mapChars f s')
  end.

(** [String.prototype.toUpperCase] / [toLowerCase] on a text of ASCII
    characters.  JavaScript also maps letters outside ASCII, and may
    change the length there; statements about the case mapping of an
    arbitrary text carry the hypothesis [isAsciiText]. *)
Definition toUpperCase : string -> string := mapChars upperChar.
Definition toLowerCase : string -> string := mapChars lowerChar.

(** [Array.prototype.join]. *)
Fixpoint join (sep : string) (l : list string) : string :=
  match l with
  | [] => ""
  | [x] => x
  | x :: rest => x +:+ sep +:+ join sep rest
  end.

(** The pieces after the first character of [text.split(/(?=[A-Z])/)]:
    [cur] is the piece being read, a capital closes it. *)
Fixpoint splitRest (cur : string) (s : string) : list string :=
  match s with
  | EmptyString => [cur]
  | String c s' =>
      if isUpper c
      then cur :: splitRest (String c EmptyString) s'
      else splitRest (cur +:+ String c EmptyString) s'
  end.

(** [text.split(/(?=[A-Z])/)]: a cut before every capital letter except
    at index 0, where the empty match is not a separator. *)
Definition splitBeforeUpper (text : string) : list string :=
  match text with
  | EmptyString => [""]
  | String c s' => splitRest (String c EmptyString) s'
  end.

(** JavaScript truthiness of a string. *)
Definition truthy (s : string) : bool :=
  match s with
  | EmptyString => false
  | String _ _ => true
  end.

End Text.

(** [camelToSnakeCase], index.ts lines 3-7. *)
Definition camelToSnakeCase (text : string) (toUpper : bool) : string :=
  let result := Text.join "_" (Text.splitBeforeUpper text) in
  if toUpper then Text.toUpperCase result else Text.toLowerCase result.

(** ** Insertion-ordered sets and maps *)

Module JsSet.

Definition has (x : string) (s : list string) : bool :=
  existsb (String.eqb x) s.

Definition add (x : string) (s : list string) : list string :=
  if has x s then s else s ++ [x].

Definition delete (x : string) (s : list string) : list string :=
  List.filter (fun y => negb (String.eqb x y)) s.

(** [new Set(array)]. *)
Definition ofList (l : list string) : list string :=
  fold_left (fun acc x => add x acc) l [].

End JsSet.

Module JsMap.

Section WithValues.
Context {V : Type}.

Definition has (k : string) (m : list (string * V)) : bool :=
  existsb (fun kv => String.eqb k (fst kv)) m.

Fixpoint get (k : string) (m : list (string * V)) : option V :=
  match m with
  | [] => None
  | (k', v) :: m' => if String.eqb k k' then Some v else get k m'
  end.

Fixpoint set (k : string) (v : V) (m : list (string * V))
  : list (string * V) :=
  match m with
  | [] => [(k, v)]
  | (k', v') :: m' =>
      if String.eqb k k' then (k, v) :: m' else (k', v') :: set k v m'
  end.

Definition delete (k : string) (m : list (string * V))
  : list (string * V) :=
  List.filter (fun kv => negb (String.eqb k (fst kv))) m.

(** [new Map(pairs)]. *)
Definition ofList (l : list (string * V)) : list (string * V) :=
  fold_left (fun acc kv => set (fst kv) (snd kv) acc) l [].

Definition keys (m : list (string * V)) : list string := map fst m.
Definition values (m : list (string * V)) : list V := map snd m.

End WithValues.

End JsMap.

(** ** The class [SchemaBuilder] *)

(** The fields of the class, index.ts lines 12-32.  [name] is [None] for
    JavaScript [null]; an omitted constructor argument is the default
    [Some ""].  [_originComplex] is [None] while the property is
    [undefined]. *)
Inductive SchemaBuilder : Type := mkSchemaBuilder {
  name : option string;
  _simple : list string;
  _complex : list (string * string);
  _originSimple : option (list string);
  _originComplex : option (list (string * (string -> result SchemaBuilder)))
}.

Definition BuilderInit : Type := string -> result SchemaBuilder.

Definition withSimple (s : list string) (this : SchemaBuilder) : SchemaBuilder :=
  mkSchemaBuilder (name this) s (_complex this)
    (_originSimple this) (_originComplex this).

Definition withComplex (c : list (string * string)) (this : SchemaBuilder)
  : SchemaBuilder :=
  mkSchemaBuilder (name this) (_simple this) c
    (_originSimple this) (_originComplex this).

(** [this._originSimple?.has(field)] *)
Definition originSimpleHas (field : string) (this : SchemaBuilder) : bool :=
  match _originSimple this with
  | Some os => JsSet.has field os
  | None => false
  end.

(** [this._originComplex?.has(field)] *)
Definition originComplexHas (field : string) (this : SchemaBuilder) : bool :=
  match _originComplex this with
  | Some oc => JsMap.has field oc
  | None => false
  end.

(** [this._originComplex?.get(field)] *)
Definition originComplexGet (field : string) (this : SchemaBuilder)
  : option BuilderInit :=
  match _originComplex this with
  | Some oc => JsMap.get field oc
  | None => None
  end.

(** [this.name + ' '] prints a [null] name as the text [null]. *)
Definition nameText (n : option string) : string :=
  match n with
  | Some s => s
  | None => "null"
  end.

(** [build], index.ts lines 198-206. *)
Definition build (addEntryName : bool) (this : SchemaBuilder) : string :=
  let simpleFields := _simple this in
  let complexFields := JsMap.values (_complex this) in
  let fields := simpleFields ++ complexFields in
  let fieldsSchema :=
    match List.length fields with
    | O => ""
    | S _ => "{" +:+ Text.join " " (simpleFields ++ complexFields) +:+ "}"
    end in
  (if addEntryName then nameText (name this) +:+ " " else "") +:+ fieldsSchema.

(** [remove], index.ts lines 65-70. *)
Definition remove (field : string) (this : SchemaBuilder) : SchemaBuilder :=
  withSimple (JsSet.delete field (_simple this))
    (withComplex (JsMap.delete field (_complex this)) this).

(** [clear], index.ts lines 73-78. *)
Definition clear (this : SchemaBuilder) : SchemaBuilder :=
  withSimple [] (withComplex [] this).

(** [addComplex], index.ts lines 85-96. *)
Definition addComplex (complex : option SchemaBuilder) (this : SchemaBuilder)
  : SchemaBuilder :=
  match complex with
  | Some c =>
      match name c with
      | Some cname =>
          if Text.truthy cname
          then
            if originComplexHas cname this
            then withComplex (JsMap.set cname (build true c) (_complex this)) this
            else this
          else this
      | None => this
      end
  | None => this
  end.

(** [getComplex], index.ts lines 102-107; [this] is not changed. *)
Definition getComplex (field : string) (this : SchemaBuilder)
  : result (option SchemaBuilder) :=
  match originComplexGet field this with
  | Some builderInit => child <-! builderInit field ;; Ok (Some child)
  | None => Ok None
  end.

(** [Array.prototype.forEach] with a body that may throw. *)
Fixpoint forEach {A S : Type} (f : A -> S -> result S) (l : list A) (s : S)
  : result S :=
  match l with
  | [] => Ok s
  | a :: l' => s' <-! f a s ;; forEach f l' s'
  end.

(** [this.addComplex(builderInit(field))] *)
Definition attachNew (builderInit : BuilderInit) (field : string)
  (this : SchemaBuilder) : result SchemaBuilder :=
  child <-! builderInit field ;; Ok (addComplex (Some child) this).

(** [useSimpleOnly], index.ts lines 113-132. *)
Definition useSimpleOnly (complexWithSimple : bool) (this : SchemaBuilder)
  : result SchemaBuilder :=
  let this1 :=
    match _originSimple this with
    | Some os => withSimple (fold_left (fun acc e => JsSet.add e acc) os []) this
    | None => this
    end in
  match _originComplex this1 with
  | Some oc =>
      let this2 := withComplex [] this1 in
      if complexWithSimple
      then forEach (fun kv => attachNew (snd kv) (fst kv)) oc this2
      else Ok this2
  | None => Ok this1
  end.

(** The local enum of [add]. *)
Inductive FieldType : Type := COMPLEX | SIMPLE | UNDEFINED.

Record GroupedFields : Type := mkGrouped {
  groupCOMPLEX : list string;
  groupSIMPLE : list string;
  groupUNDEFINED : list string
}.

(** The body of the reducer of [add], lines 146-157. *)
Definition classify (this : SchemaBuilder) (field : string) : FieldType :=
  if originComplexHas field this
  then if negb (JsMap.has field (_complex this)) then COMPLEX else UNDEFINED
  else if originSimpleHas field this then SIMPLE else UNDEFINED.

(** [acc[key].push(field)] *)
Definition push (key : FieldType) (field : string) (acc : GroupedFields)
  : GroupedFields :=
  match key with
  | COMPLEX =>
      mkGrouped (groupCOMPLEX acc ++ [field]) (groupSIMPLE acc) (groupUNDEFINED acc)
  | SIMPLE =>
      mkGrouped (groupCOMPLEX acc) (groupSIMPLE acc ++ [field]) (groupUNDEFINED acc)
  | UNDEFINED =>
      mkGrouped (groupCOMPLEX acc) (groupSIMPLE acc) (groupUNDEFINED acc ++ [field])
  end.

Definition groupFields (this : SchemaBuilder) (fields : list string)
  : GroupedFields :=
  fold_left (fun acc field => push (classify this field) field acc)
    fields (mkGrouped [] [] []).

(** [add], index.ts lines 139-181. *)
Definition add (fields : list string) (this : SchemaBuilder)
  : result SchemaBuilder :=
  let groupedFields := groupFields this fields in
  this1 <-! forEach
              (fun e t =>
                 match originComplexGet e t with
                 | Some builderInit => attachNew builderInit e t
                 | None => Ok t
                 end)
              (groupCOMPLEX groupedFields) this ;;
  Ok (fold_left (fun t e => withSimple (JsSet.add e (_simple t)) t)
        (groupSIMPLE groupedFields) this1).

(** [set], index.ts lines 188-191. *)
Definition set (fields : list string) (this : SchemaBuilder)
  : result SchemaBuilder :=
  add fields (clear this).

(** The constructor, index.ts lines 30-62.  [simpleFields] is the array,
    or the [Object.values] of the enum object; [initFields] is [[]] for
    an absent list. *)
Definition constructor (simpleFields : list string) (name : option string)
  (initFields : list string) (infoAboutComplex : list (string * BuilderInit))
  : result SchemaBuilder :=
  let originComplex :=
    match infoAboutComplex with
    | [] => None
    | _ :: _ => Some (JsMap.ofList infoAboutComplex)
    end in
  let fields := JsSet.ofList simpleFields in
  let fields :=
    match originComplex with
    | Some oc => fold_left (fun acc kv => JsSet.delete (fst kv) acc) oc fields
    | None => fields
    end in
  let originSimple := Some fields in
  if (match originSimple with
      | Some os => Nat.eqb (List.length os) 0
      | None => false
      end)
     && (match originComplex with
         | Some oc => Nat.eqb (List.length oc) 0
         | None => false
         end)
  then Err "Schema does not include fields"
  else
    let this := mkSchemaBuilder name [] [] originSimple originComplex in
    match initFields with
    | _ :: _ => add initFields this
    | [] => useSimpleOnly false this
    end.

(** [createOperationName], index.ts line 212. *)
Definition createOperationName (scriptName : string) : string :=
  camelToSnakeCase scriptName true.

Inductive ScriptType : Type := query | mutation.

Definition scriptTypeText (t : ScriptType) : string :=
  match t with
  | query => "query"
  | mutation => "mutation"
  end.

(** The third argument of [createScript]: text or a builder. *)
Inductive ResultSchema : Type :=
| SchemaText (s : string)
| SchemaNode (b : SchemaBuilder).

(** [fType || 'String!'] where [fType] may be [undefined]. *)
Definition typeOrDefault (fType : option string) : string :=
  match fType with
  | Some t => if Text.truthy t then t else "String!"
  | None => "String!"
  end.

(** [createScript], index.ts lines 219-248.  [resultSchema] is [None]
    for [null] and [undefined]; string concatenation prints it as
    [null]. *)
Definition createScript (scriptType : ScriptType) (name : string)
  (resultSchema : option ResultSchema)
  (paramsMapping : list (string * option string)) : string :=
  let args :=
    Text.join ", " (map (fun p => fst p +:+ ": $" +:+ fst p) paramsMapping) in
  let schema0 :=
    (if Text.truthy args then "(" +:+ args +:+ ")" else "")
    +:+ (match resultSchema with
         | Some (SchemaText s) => s
         | Some (SchemaNode b) => build false b
         | None => "null"
         end) in
  let schema := if Text.truthy schema0 then schema0 else "" in
  let operationName :=
    scriptTypeText scriptType +:+ " " +:+ createOperationName name in
  let preparedParams :=
    Text.join Text.newline
      (map (fun p => "$" +:+ fst p +:+ ": " +:+ typeOrDefault (snd p))
         paramsMapping) in
  let params :=
    if Text.truthy preparedParams then "(" +:+ preparedParams +:+ ")" else "" in
  operationName +:+ " " +:+ params +:+ " { " +:+ name +:+ " " +:+ schema +:+ " }".

(** ** The example registries of [examples/index.ts] *)

Definition PublisherSchemaBuilder (entryName : option string)
  (initFields : list string) : result SchemaBuilder :=
  constructor ["name"; "address"] entryName initFields [].

Definition BookSchemaBuilder (entryName : option string)
  (initFields : list string) : result SchemaBuilder :=
  constructor ["title"; "publisher"] entryName initFields
    [("publisher", fun e => PublisherSchemaBuilder (Some e) [])].

Definition AuthorSchemaBuilder (entryName : option string)
  (initFields : list string) : result SchemaBuilder :=
  constructor ["id"; "name"; "books"] entryName initFields
    [("books", fun e => BookSchemaBuilder (Some e) [])].

(** ** Call sequences on one object *)

(** The public surface of a node, one constructor per method. *)
Inductive Op : Type :=
| OpAdd (fields : list string)
| OpRemove (field : string)
| OpSet (fields : list string)
| OpClear
| OpAddComplex (complex : option SchemaBuilder)
| OpGetComplex (field : string)
| OpUseSimpleOnly (complexWithSimple : bool)
| OpBuild (addEntryName : bool).

(** The receiver after one call (the value a call returns is dropped). *)
Definition step (o : Op) (this : SchemaBuilder) : result SchemaBuilder :=
  match o with
  | OpAdd fields => add fields this
  | OpRemove field => Ok (remove field this)
  | OpSet fields => set fields this
  | OpClear => Ok (clear this)
  | OpAddComplex complex => Ok (addComplex complex this)
  | OpGetComplex field => _ <-! getComplex field this ;; Ok this
  | OpUseSimpleOnly b => useSimpleOnly b this
  | OpBuild _ => Ok this
  end.

Definition run (ops : list Op) (this : SchemaBuilder) : result SchemaBuilder :=
  forEach step ops this.

(** ** Objects shared by reference *)

(** A heap of builder objects; a reference is an index.  A method call
    names its receiver and passes builders by reference. *)
Abbreviation heap := (list SchemaBuilder).

Inductive Call : Type :=
| CallAdd (fields : list string)
| CallRemove (field : string)
| CallSet (fields : list string)
| CallClear
| CallAddComplex (complex : option nat)
| CallGetComplex (field : string)
| CallUseSimpleOnly (complexWithSimple : bool)
| CallBuild (addEntryName : bool).

(** [update target r h] stores the new state of the receiver. *)
Definition update (target : nat) (r : result SchemaBuilder) (h : heap)
  : result heap :=
  this' <-! r ;; Ok (<[target := this']> h).

Definition exec (tc : nat * Call) (h : heap) : result heap :=
  let target := fst tc in
  match h !! target with
  | None => Err "TypeError: receiver is not an object"
  | Some this =>
      match snd tc with
      | CallAdd fields => update target (add fields this) h
      | CallRemove field => update target (Ok (remove field this)) h
      | CallSet fields => update target (set fields this) h
      | CallClear => update target (Ok (clear this)) h
      | CallAddComplex None => update target (Ok (addComplex None this)) h
      | CallAddComplex (Some ref) =>
          match h !! ref with
          | Some c => update target (Ok (addComplex (Some c) this)) h
          | None => Err "ReferenceError: argument is not an object"
          end
      | CallGetComplex field =>
          r <-! getComplex field this ;;
          match r with
          | Some child => Ok (h ++ [child])
          | None => Ok h
          end
      | CallUseSimpleOnly b => update target (useSimpleOnly b this) h
      | CallBuild _ => Ok h
      end
  end.

Definition execAll (calls : list (nat * Call)) (h : heap) : result heap :=
  forEach exec calls h.

(** [h[ref].build(addEntryName)] *)
Definition buildAt (addEntryName : bool) (ref : nat) (h : heap) : option string :=
  build addEntryName <$> h !! ref.

(** ** Registry views and the state invariant *)

Definition originSimple (this : SchemaBuilder) : list string :=
  default [] (_originSimple this).

Definition originComplexKeys (this : SchemaBuilder) : list string :=
  match _originComplex this with
  | Some oc => JsMap.keys oc
  | None => []
  end.

(** The registered complex pairs, none while the map is [undefined]. *)
Definition registered (this : SchemaBuilder) : list (string * BuilderInit) :=
  default [] (_originComplex this).

Record wf (this : SchemaBuilder) : Prop := mkWf {
  wf_originSimple : is_Some (_originSimple this);
  wf_originSimple_nodup : NoDup (originSimple this);
  wf_originComplex_nodup : NoDup (originComplexKeys this);
  wf_disjoint : forall f, f ∈ originComplexKeys this -> f ∉ originSimple this;
  wf_simple_nodup : NoDup (_simple this);
  wf_complex_nodup : NoDup (JsMap.keys (_complex this));
  wf_simple_sub : forall f, f ∈ _simple this -> f ∈ originSimple this;
  wf_complex_sub :
    forall f, f ∈ JsMap.keys (_complex this) -> f ∈ originComplexKeys this
}.

(** Two states of one object: same name, same registry. *)
Definition sameRegistry (a b : SchemaBuilder) : Prop :=
  name a = name b
  /\ _originSimple a = _originSimple b
  /\ _originComplex a = _originComplex b.

(** The invariant, the registry and the simple selection, together:
    what every attaching loop preserves. *)
Definition attached (this this' : SchemaBuilder) : Prop :=
  sameRegistry this this' /\ _simple this' = _simple this
  /\ (wf this -> wf this').

(** Every stored complex entry is the [build()] text of a node that
    has the name of the entry. *)
Definition entriesNamed (this : SchemaBuilder) : Prop :=
  forall k v,
    (k, v) ∈ _complex this -> exists c, name c = Some k /\ v = build true c.

(** The calls that can put a complex entry under the name [f]. *)
Definition mayAttach (f : string) (o : Op) : Prop :=
  match o with
  | OpAdd _ | OpSet _ | OpUseSimpleOnly true => True
  | OpAddComplex (Some c) => name c = Some f
  | _ => False
  end.

(** ** The constructor, step by step *)

(** The registry the constructor computes, and the object before its
    first selection. *)
Definition newOriginComplex (infoAboutComplex : list (string * BuilderInit))
  : option (list (string * BuilderInit)) :=
  match infoAboutComplex with
  | [] => None
  | _ :: _ => Some (JsMap.ofList infoAboutComplex)
  end.

Definition newOriginSimple (simpleFields : list string)
  (infoAboutComplex : list (string * BuilderInit)) : list string :=
  match newOriginComplex infoAboutComplex with
  | Some oc =>
      fold_left (fun acc kv => JsSet.delete (fst kv) acc) oc
        (JsSet.ofList simpleFields)
  | None => JsSet.ofList simpleFields
  end.

Definition blank (simpleFields : list string) (name : option string)
  (infoAboutComplex : list (string * BuilderInit)) : SchemaBuilder :=
  mkSchemaBuilder name [] []
    (Some (newOriginSimple simpleFields infoAboutComplex))
    (newOriginComplex infoAboutComplex).

(** The state every [useSimpleOnly] starts its attaching loop from. *)
Definition resetTo (this : SchemaBuilder) : SchemaBuilder :=
  mkSchemaBuilder (name this) (originSimple this) []
    (_originSimple this) (_originComplex this).

(** A factory in the manner of the examples,
    [(e) => new ChildSchemaBuilder(e)]: a constructor call with the name
    it is given and no initial fields. *)
Definition defaultFactory (builderInit : BuilderInit) : Prop :=
  exists sf cx, forall e, builderInit e = constructor sf (Some e) [] cx.

(** A node as the constructor leaves it without initial fields. *)
Definition defaultPopulated (this : SchemaBuilder) : Prop :=
  _simple this = originSimple this /\ _complex this = [].

(** What [useSimpleOnly(true)] stores for one registered pair. *)
Definition defaultEntry (kv : string * BuilderInit) : list (string * string) :=
  if Text.truthy (fst kv)
  then match snd kv (fst kv) with
       | Ok child => [(fst kv, build true child)]
       | Err _ => []
       end
  else [].

Definition isKey (k j : FieldType) : bool :=
  match k, j with
  | COMPLEX, COMPLEX | SIMPLE, SIMPLE | UNDEFINED, UNDEFINED => true
  | _, _ => false
  end.

(** ** The texts [build] and [createScript] produce *)

(** The text of a selection: the simple tokens, then the nested
    selections, one space between any two, in one pair of braces; no
    braces at all when nothing is selected. *)
Definition selectionText (simple complex : list string) : string :=
  match simple, complex with
  | [], [] => ""
  | _ :: _, [] => "{" +:+ Text.join " " simple +:+ "}"
  | [], _ :: _ => "{" +:+ Text.join " " complex +:+ "}"
  | _ :: _, _ :: _ =>
      "{" +:+ Text.join " " simple +:+ " " +:+ Text.join " " complex +:+ "}"
  end.

(** The entry-name prefix of [build]. *)
Definition entryPrefix (addEntryName : bool) (this : SchemaBuilder) : string :=
  if addEntryName then nameText (name this) +:+ " " else "".

(** One variable declaration, [$name: Type]. *)
Definition declaration (p : string * option string) : string :=
  "$" +:+ fst p +:+ ": " +:+ typeOrDefault (snd p).

(** One argument, [name: $name]. *)
Definition argument (p : string * option string) : string :=
  fst p +:+ ": $" +:+ fst p.

(** The variable declarations between parentheses, the separator left
    open; nothing at all for an empty mapping. *)
Definition declarationList (sep : string)
  (paramsMapping : list (string * option string)) : string :=
  match paramsMapping with
  | [] => ""
  | _ :: _ => "(" +:+ Text.join sep (map declaration paramsMapping) +:+ ")"
  end.

(** The [field: $field] arguments between parentheses; nothing at all for
    an empty mapping. *)
Definition argumentList (paramsMapping : list (string * option string))
  : string :=
  match paramsMapping with
  | [] => ""
  | _ :: _ => "(" +:+ Text.join ", " (map argument paramsMapping) +:+ ")"
  end.

(** The text standing for the result schema. *)
Definition resultText (resultSchema : option ResultSchema) : string :=
  match resultSchema with
  | Some (SchemaText s) => s
  | Some (SchemaNode b) => build false b
  | None => "null"
  end.

(** [isInfixOf needle s]: [needle] occurs in [s]. *)
Fixpoint isInfixOf (needle s : string) : bool :=
  String.prefix needle s
  || match s with
     | EmptyString => false
     | String _ s' => isInfixOf needle s'
     end.

(** ** Sample objects and calls *)

(** The default-populated author node of the examples. *)
Definition authorNode : SchemaBuilder :=
  mkSchemaBuilder (Some "author") ["id"; "name"] [] (Some ["id"; "name"])
    (Some [("books", fun e => BookSchemaBuilder (Some e) [])]).

(** The default-populated publisher node of the examples. *)
Definition publisherNode : SchemaBuilder :=
  mkSchemaBuilder (Some "publisher") ["name"; "address"] []
    (Some ["name"; "address"]) None.

(** A book node as the author's factory names it. *)
Definition sampleBook : SchemaBuilder :=
  mkSchemaBuilder (Some "books") ["title"] [] (Some ["title"])
    (Some [("publisher", fun e => PublisherSchemaBuilder (Some e) [])]).

(** A call sequence on the author node: a complex name added before a
    simple one, an unknown name, a duplicate. *)
Definition sampleCalls : list Op :=
  [ OpClear; OpAdd ["books"; "name"; "isbn"]; OpRemove "id";
    OpUseSimpleOnly true; OpSet ["name"; "books"; "books"];
    OpGetComplex "books"; OpBuild true ].

(** The author node after [sampleCalls]. *)
Definition sampleState : SchemaBuilder :=
  mkSchemaBuilder (Some "author") ["name"] [("books", "books {title}")]
    (Some ["id"; "name"])
    (Some [("books", fun e => BookSchemaBuilder (Some e) [])]).

(** A heap with the author node at 0 and the book node at 1, and later
    calls on the book node; the third passes the publisher node that the
    second allocates at 2. *)
Definition sampleHeap : heap := [authorNode; sampleBook].

Definition laterCalls : list Call :=
  [ CallSet ["publisher"]; CallGetComplex "publisher";
    CallAddComplex (Some 2); CallRemove "title"; CallClear ].

(** ** Further vocabulary *)

(** Every registered factory returns a node when it is called with the
    name it is registered under (the only way the class calls it). *)
Definition factoriesSucceed (this : SchemaBuilder) : Prop :=
  forall k builderInit,
    (k, builderInit) ∈ registered this -> exists child, builderInit k = Ok child.

(** The text with an underscore put before every capital letter. *)
Fixpoint underscored (s : string) : string :=
  match s with
  | EmptyString => EmptyString
  | String c s' =>
      if Text.isUpper c
      then String "_" (String c (underscored s'))
      else String c (underscored s')
  end.

(** The same, leaving the first character alone. *)
Definition snake (text : string) : string :=
  match text with
  | EmptyString => EmptyString
  | String c s' => String c (underscored s')
  end.

(** The number of capital letters of a text. *)
Fixpoint countUpper (s : string) : nat :=
  match s with
  | EmptyString => 0
  | String c s' => (if Text.isUpper c then 1 else 0) + countUpper s'
  end.

(** All characters of a text satisfy [p]. *)
Fixpoint allChars (p : ascii -> bool) (s : string) : bool :=
  match s with
  | EmptyString => true
  | String c s' => p c && allChars p s'
  end.

(** The constants of [examples/index.ts], lines 54-90. *)
Definition authorDefault : result string :=
  b <-! AuthorSchemaBuilder (Some "author") [] ;; Ok (build true b).

Definition authorWithPublishers : result string :=
  b <-! AuthorSchemaBuilder (Some "author") [] ;;
  let builder := clear b in
  r <-! getComplex "books" builder ;;
  r' <-! match r with
         | Some book => book' <-! set ["publisher"] book ;; Ok (Some book')
         | None => Ok None
         end ;;
  Ok (build true (addComplex r' builder)).

Definition authorWithSimpleTree : result SchemaBuilder :=
  b <-! AuthorSchemaBuilder (Some "") [] ;; add ["id"; "name"; "books"] b.

Definition queryScript : result string :=
  b <-! authorWithSimpleTree ;;
  Ok (createScript query "getAuthor" (Some (SchemaNode b)) []).

(** The author node constructed with the name [null]. *)
Definition nullAuthorNode : SchemaBuilder :=
  mkSchemaBuilder None ["id"; "name"] [] (Some ["id"; "name"])
    (Some [("books", fun e => BookSchemaBuilder (Some e) [])]).

(** The tokens of a selection text as GraphQL reads it: spaces
    separate, and each brace is a token of its own. *)
Definition flushToken (cur : string) : list string :=
  match cur with
  | EmptyString => []
  | String _ _ => [cur]
  end.

Fixpoint tokensFrom (cur : string) (s : string) : list string :=
  match s with
  | EmptyString => flushToken cur
  | String c s' =>
      if Ascii.eqb c " "
      then flushToken cur ++ tokensFrom "" s'
      else if Ascii.eqb c "{" || Ascii.eqb c "}"
           then flushToken cur ++ String c "" :: tokensFrom "" s'
           else tokensFrom (cur +:+ String c "") s'
  end.

Definition tokens (s : string) : list string := tokensFrom "" s.

(** The author node of a registry in which [books] is a simple field
    only, with all its fields selected. *)
Definition flatAuthorNode : SchemaBuilder :=
  mkSchemaBuilder (Some "author") ["id"; "name"; "books"] []
    (Some ["id"; "name"; "books"]) None.

(** A text of ASCII characters, on which the case mappings of [Text]
    are those of JavaScript. *)
Definition isAsciiText (s : string) : bool :=
  allChars (fun c => Nat.ltb (nat_of_ascii c) 128) s.

(** * Lemmas on the containers *)

Section SetFacts.

Lemma has_elem_of x (s : list string) : JsSet.has x s = true <-> x ∈ s.
Proof.
  unfold JsSet.has. rewrite existsb_exists. split.
  - intros (y & Hy & Heq). apply String.eqb_eq in Heq. subst.
    by apply list_elem_of_In.
  - intros H. exists x. split; [by apply list_elem_of_In|apply String.eqb_refl].
Qed.

Lemma has_false x (s : list string) : JsSet.has x s = false <-> x ∉ s.
Proof.
  rewrite <- has_elem_of. destruct (JsSet.has x s); split; congruence.
Qed.

Lemma elem_of_add y x (s : list string) :
  y ∈ JsSet.add x s <-> y = x \/ y ∈ s.
Proof.
  unfold JsSet.add. destruct (JsSet.has x s) eqn:E.
  - apply has_elem_of in E. split; [auto|]. intros [->|]; done.
  - rewrite elem_of_app, list_elem_of_singleton. tauto.
Qed.

Lemma NoDup_add x (s : list string) : NoDup s -> NoDup (JsSet.add x s).
Proof.
  intros H. unfold JsSet.add. destruct (JsSet.has x s) eqn:E; [done|].
  apply has_false in E. apply NoDup_app. split; [done|]. split.
  - intros y Hy Hy'. apply list_elem_of_singleton in Hy'. by subst.
  - apply NoDup_singleton.
Qed.

Lemma add_present x (s : list string) : x ∈ s -> JsSet.add x s = s.
Proof. intros H. unfold JsSet.add. apply has_elem_of in H. by rewrite H. Qed.

Lemma add_absent x (s : list string) : x ∉ s -> JsSet.add x s = s ++ [x].
Proof. intros H. unfold JsSet.add. apply has_false in H. by rewrite H. Qed.

Lemma elem_of_delete y x (s : list string) :
  y ∈ JsSet.delete x s <-> y <> x /\ y ∈ s.
Proof.
  unfold JsSet.delete. rewrite !list_elem_of_In, List.filter_In.
  rewrite Bool.negb_true_iff, String.eqb_neq. split; intros [? ?]; split; auto.
Qed.

Lemma NoDup_delete x (s : list string) : NoDup s -> NoDup (JsSet.delete x s).
Proof. unfold JsSet.delete. rewrite !NoDup_ListNoDup. apply List.NoDup_filter. Qed.

Lemma delete_absent x (s : list string) : x ∉ s -> JsSet.delete x s = s.
Proof.
  unfold JsSet.delete. induction s as [|y s IH]; intros H; [done|].
  simpl. apply not_elem_of_cons in H as [Hne Hs].
  destruct (String.eqb_spec x y); [done|]. simpl. by rewrite IH.
Qed.

(** Copying a duplicate-free sequence element by element into a set
    that shares nothing with it appends it unchanged. *)
Lemma fold_add_app (l acc : list string) :
  NoDup (acc ++ l) ->
  fold_left (fun a e => JsSet.add e a) l acc = acc ++ l.
Proof.
  revert acc. induction l as [|x l IH]; intros acc H; simpl.
  - by rewrite app_nil_r.
  - assert (x ∉ acc) as Hx.
    { apply NoDup_app in H as (_ & Hd & _). intros Hin.
      apply (Hd x Hin). by left. }
    rewrite (add_absent _ _ Hx). rewrite IH.
    + by rewrite <- app_assoc.
    + by rewrite <- app_assoc.
Qed.

Lemma fold_add_copy (l : list string) :
  NoDup l -> fold_left (fun a e => JsSet.add e a) l [] = l.
Proof. intros H. by rewrite fold_add_app. Qed.

Lemma NoDup_fold_add (l acc : list string) :
  NoDup acc -> NoDup (fold_left (fun a e => JsSet.add e a) l acc).
Proof.
  revert acc. induction l as [|x l IH]; intros acc H; simpl; [done|].
  apply IH. by apply NoDup_add.
Qed.

Lemma elem_of_fold_add y (l acc : list string) :
  y ∈ fold_left (fun a e => JsSet.add e a) l acc <-> y ∈ acc \/ y ∈ l.
Proof.
  revert acc. induction l as [|x l IH]; intros acc; simpl.
  - rewrite elem_of_nil. tauto.
  - rewrite IH, elem_of_add, elem_of_cons. tauto.
Qed.

Lemma NoDup_ofList (l : list string) : NoDup (JsSet.ofList l).
Proof. apply NoDup_fold_add, NoDup_nil_2. Qed.

Lemma elem_of_ofList y (l : list string) : y ∈ JsSet.ofList l <-> y ∈ l.
Proof. unfold JsSet.ofList. rewrite elem_of_fold_add, elem_of_nil. tauto. Qed.

End SetFacts.

Section MapFacts.
Context {V : Type}.
Implicit Types (m : list (string * V)) (k : string) (v : V).

Lemma map_has_elem_of k m : JsMap.has k m = true <-> k ∈ JsMap.keys m.
Proof.
  unfold JsMap.has, JsMap.keys. rewrite existsb_exists, list_elem_of_fmap.
  split.
  - intros ([k' v] & Hin & Heq). apply String.eqb_eq in Heq. simpl in Heq.
    subst. exists (k', v). split; [done|by apply list_elem_of_In].
  - intros ([k' v] & -> & Hin). exists (k', v).
    split; [by apply list_elem_of_In|apply String.eqb_refl].
Qed.

Lemma map_has_false k m : JsMap.has k m = false <-> k ∉ JsMap.keys m.
Proof.
  rewrite <- map_has_elem_of. destruct (JsMap.has k m); split; congruence.
Qed.

Lemma set_absent k v m : k ∉ JsMap.keys m -> JsMap.set k v m = m ++ [(k, v)].
Proof.
  induction m as [|[k' v'] m IH]; intros H; [done|].
  simpl in *. apply not_elem_of_cons in H as [Hne Hm].
  destruct (String.eqb_spec k k'); [done|]. by rewrite IH.
Qed.

Lemma keys_set_present k v m :
  k ∈ JsMap.keys m -> JsMap.keys (JsMap.set k v m) = JsMap.keys m.
Proof.
  induction m as [|[k' v'] m IH]; intros H; simpl in *.
  - by apply elem_of_nil in H.
  - destruct (String.eqb_spec k k') as [->|Hne]; [done|].
    simpl. f_equal. apply IH. apply elem_of_cons in H as [?|?]; done.
Qed.

Lemma keys_set k v m :
  JsMap.keys (JsMap.set k v m)
  = if JsMap.has k m then JsMap.keys m else JsMap.keys m ++ [k].
Proof.
  destruct (JsMap.has k m) eqn:E.
  - apply keys_set_present. by apply map_has_elem_of.
  - apply map_has_false in E. rewrite (set_absent _ _ _ E).
    unfold JsMap.keys. by rewrite map_app.
Qed.

Lemma elem_of_keys_set y k v m :
  y ∈ JsMap.keys (JsMap.set k v m) <-> y = k \/ y ∈ JsMap.keys m.
Proof.
  rewrite keys_set. destruct (JsMap.has k m) eqn:E.
  - apply map_has_elem_of in E. split; [auto|]. intros [->|]; done.
  - rewrite elem_of_app, list_elem_of_singleton. tauto.
Qed.

Lemma NoDup_keys_set k v m :
  NoDup (JsMap.keys m) -> NoDup (JsMap.keys (JsMap.set k v m)).
Proof.
  intros H. rewrite keys_set. destruct (JsMap.has k m) eqn:E; [done|].
  apply map_has_false in E. apply NoDup_app. split; [done|]. split.
  - intros y Hy Hy'. apply list_elem_of_singleton in Hy'. by subst.
  - apply NoDup_singleton.
Qed.

Lemma get_set_eq k v m : JsMap.get k (JsMap.set k v m) = Some v.
Proof.
  induction m as [|[k' v'] m IH]; simpl.
  - by rewrite String.eqb_refl.
  - destruct (String.eqb_spec k k') as [->|Hne]; simpl.
    + by rewrite String.eqb_refl.
    + destruct (String.eqb_spec k k'); done.
Qed.

Lemma get_set_ne k k' v m :
  k <> k' -> JsMap.get k' (JsMap.set k v m) = JsMap.get k' m.
Proof.
  intros Hne. induction m as [|[k0 v0] m IH]; simpl.
  - destruct (String.eqb_spec k' k); [congruence|done].
  - destruct (String.eqb_spec k k0) as [->|Hne0]; simpl.
    + destruct (String.eqb_spec k' k0); [congruence|done].
    + destruct (String.eqb_spec k' k0); [done|apply IH].
Qed.

Lemma get_None k m : JsMap.get k m = None <-> k ∉ JsMap.keys m.
Proof.
  induction m as [|[k' v'] m IH]; simpl.
  - split; [intros _; apply not_elem_of_nil|done].
  - rewrite not_elem_of_cons. destruct (String.eqb_spec k k') as [->|Hne].
    + split; [done|]. intros [? _]. done.
    + rewrite IH. tauto.
Qed.

Lemma get_is_Some k m : is_Some (JsMap.get k m) <-> k ∈ JsMap.keys m.
Proof.
  destruct (JsMap.get k m) eqn:E.
  - split; [|eauto]. intros _. destruct (decide (k ∈ JsMap.keys m)); [done|].
    apply get_None in n. congruence.
  - split; [by intros [? ?]|]. intros H. apply get_None in E. done.
Qed.

Lemma get_elem_of k v m : JsMap.get k m = Some v -> (k, v) ∈ m.
Proof.
  induction m as [|[k' v'] m IH]; simpl; [done|].
  destruct (String.eqb_spec k k') as [->|Hne].
  - intros [= ->]. by left.
  - intros H. right. by apply IH.
Qed.

Lemma keys_delete k m :
  JsMap.keys (JsMap.delete k m) = JsSet.delete k (JsMap.keys m).
Proof.
  unfold JsMap.delete, JsSet.delete, JsMap.keys.
  induction m as [|[k' v'] m IH]; [done|]. simpl.
  destruct (String.eqb k k'); simpl; by rewrite IH.
Qed.

Lemma map_delete_absent k m : k ∉ JsMap.keys m -> JsMap.delete k m = m.
Proof.
  unfold JsMap.delete. induction m as [|[k' v'] m IH]; intros H; [done|].
  simpl in *. apply not_elem_of_cons in H as [Hne Hm].
  destruct (String.eqb_spec k k'); [done|]. simpl. by rewrite IH.
Qed.

Lemma NoDup_keys_fold_set (l : list (string * V)) m :
  NoDup (JsMap.keys m) ->
  NoDup (JsMap.keys
           (fold_left (fun acc kv => JsMap.set (fst kv) (snd kv) acc) l m)).
Proof.
  revert m. induction l as [|[k v] l IH]; intros m H; simpl; [done|].
  apply IH. by apply NoDup_keys_set.
Qed.

Lemma elem_of_keys_fold_set y (l : list (string * V)) m :
  y ∈ JsMap.keys
        (fold_left (fun acc kv => JsMap.set (fst kv) (snd kv) acc) l m)
  <-> y ∈ JsMap.keys m \/ y ∈ map fst l.
Proof.
  revert m. induction l as [|[k v] l IH]; intros m; simpl.
  - rewrite elem_of_nil. tauto.
  - rewrite IH, elem_of_keys_set, elem_of_cons. tauto.
Qed.

Lemma NoDup_keys_ofList (l : list (string * V)) :
  NoDup (JsMap.keys (JsMap.ofList l)).
Proof. apply NoDup_keys_fold_set. apply NoDup_nil_2. Qed.

Lemma elem_of_keys_ofList y (l : list (string * V)) :
  y ∈ JsMap.keys (JsMap.ofList l) <-> y ∈ map fst l.
Proof.
  unfold JsMap.ofList. rewrite elem_of_keys_fold_set.
  unfold JsMap.keys at 1. simpl. rewrite elem_of_nil. tauto.
Qed.

Lemma set_not_nil k v m : JsMap.set k v m <> [].
Proof. destruct m as [|[k' v'] m]; simpl; [done|]. by destruct (String.eqb k k'). Qed.

Lemma ofList_not_nil (l : list (string * V)) : l <> [] -> JsMap.ofList l <> [].
Proof.
  intros H Hnil. assert (JsMap.keys (JsMap.ofList l) = []) as Hk by by rewrite Hnil.
  destruct l as [|[k v] l]; [done|].
  assert (k ∈ JsMap.keys (JsMap.ofList ((k, v) :: l))) as Hin.
  { apply elem_of_keys_ofList. simpl. by left. }
  rewrite Hk in Hin. by apply elem_of_nil in Hin.
Qed.

End MapFacts.

(** * Lemmas on text *)

Section TextFacts.

Lemma append_cons c (s t : string) : String c s +:+ t = String c (s +:+ t).
Proof. reflexivity. Qed.

Lemma append_nil_l (s : string) : "" +:+ s = s.
Proof. reflexivity. Qed.

Lemma append_nil_r (s : string) : s +:+ "" = s.
Proof. induction s as [|c s IH]; [done|]. by rewrite append_cons, IH. Qed.

Lemma append_assoc (s t u : string) : (s +:+ t) +:+ u = s +:+ t +:+ u.
Proof. induction s as [|c s IH]; [done|]. by rewrite !append_cons, IH. Qed.

Lemma truthy_app (s t : string) :
  Text.truthy (s +:+ t) = Text.truthy s || Text.truthy t.
Proof. by destruct s. Qed.

(** [s || ''] is [s]. *)
Lemma or_empty (s : string) : (if Text.truthy s then s else "") = s.
Proof. by destruct s. Qed.

Lemma join_cons sep x y (l : list string) :
  Text.join sep (x :: y :: l) = x +:+ sep +:+ Text.join sep (y :: l).
Proof. reflexivity. Qed.

Lemma join_app sep (l1 l2 : list string) :
  l1 <> [] -> l2 <> [] ->
  Text.join sep (l1 ++ l2) = Text.join sep l1 +:+ sep +:+ Text.join sep l2.
Proof.
  intros H1 H2. induction l1 as [|x [|y l1] IH]; [done| |].
  - destruct l2 as [|z l2]; [done|]. reflexivity.
  - change ((x :: y :: l1) ++ l2) with (x :: y :: (l1 ++ l2)).
    rewrite !join_cons. change (y :: l1 ++ l2) with ((y :: l1) ++ l2).
    rewrite IH by done. by rewrite !append_assoc.
Qed.

Lemma truthy_join sep x (l : list string) :
  Text.truthy x = true -> Text.truthy (Text.join sep (x :: l)) = true.
Proof.
  intros H. destruct l as [|y l]; [done|].
  rewrite join_cons, truthy_app, H. done.
Qed.

End TextFacts.

(** * The operation assembler *)

Lemma createScript_shape kind name rs ps :
  createScript kind name rs ps
  = scriptTypeText kind +:+ " " +:+ createOperationName name +:+ " "
    +:+ declarationList Text.newline ps
    +:+ " { " +:+ name +:+ " " +:+ argumentList ps +:+ resultText rs +:+ " }".
Proof.
  unfold createScript, declarationList, argumentList, resultText,
    declaration, argument.
  rewrite or_empty. destruct ps as [|p ps].
  - simpl map. simpl Text.join. simpl Text.truthy. cbv iota.
    by rewrite !append_assoc.
  - rewrite !map_cons. rewrite !truthy_join by (by destruct p as [[|] ?]).
    by rewrite !append_assoc.
Qed.

Lemma authorNode_constructed : AuthorSchemaBuilder (Some "author") [] = Ok authorNode.
Proof. reflexivity. Qed.

(** C3, as the written claim has it, fails: with two parameters the
    declarations of the returned document are not listed comma-separated;
    the text [($a: Int, $b: String!)] does not occur in it, the
    declarations stand on two lines. *)
Lemma createScript_declarations_not_comma_separated :
  let doc := createScript query "getX" None [("a", Some "Int"); ("b", None)] in
  isInfixOf "($a: Int, $b: String!)" doc = false
  /\ doc = "query GET_X ($a: Int" +:+ Text.newline
           +:+ "$b: String!) { getX (a: $a, b: $b)null }".
Proof. split; reflexivity. Qed.

(** C3 (amended): for every kind, name, result schema and parameter
    mapping, a non-empty mapping gives the document whose outer
    parenthetical lists the declarations [$var: Type] separated by a line
    break (not by a comma) and whose inner parenthetical lists the
    arguments [field: $field] separated by a comma and a space; an empty
    or absent type reads [String!], any other type is kept; an empty
    mapping leaves out both parentheticals. *)
Theorem createScript_declarations kind name rs ps :
  createScript kind name rs ps
  = match ps with
    | [] =>
        scriptTypeText kind +:+ " " +:+ createOperationName name +:+ " "
        +:+ " { " +:+ name +:+ " " +:+ resultText rs +:+ " }"
    | _ :: _ =>
        scriptTypeText kind +:+ " " +:+ createOperationName name +:+ " "
        +:+ "(" +:+ Text.join Text.newline (map declaration ps) +:+ ")"
        +:+ " { " +:+ name +:+ " "
        +:+ "(" +:+ Text.join ", " (map argument ps) +:+ ")"
        +:+ resultText rs +:+ " }"
    end
  /\ (forall v, declaration (v, None) = "$" +:+ v +:+ ": String!")
  /\ (forall v, declaration (v, Some "") = "$" +:+ v +:+ ": String!")
  /\ (forall v c t,
        declaration (v, Some (String c t)) = "$" +:+ v +:+ ": " +:+ String c t).
Proof.
  split; [|by repeat split].
  rewrite createScript_shape. unfold declarationList, argumentList.
  destruct ps as [|p ps]; [done|]. by rewrite !append_assoc.
Qed.

(** C4, as the written claim has it, fails on its second half: for the
    author node of the examples, whose selection is [id] and [name],
    [createScript] does not return the document with the entry name
    [author] in it. *)
Lemma createScript_getAuthor_without_entry_name :
  exists n,
    AuthorSchemaBuilder (Some "author") [] = Ok n
    /\ _simple n = ["id"; "name"] /\ _complex n = []
    /\ createScript query "getAuthor" (Some (SchemaNode n)) []
       <> "query GET_AUTHOR  { getAuthor  author {id name} }".
Proof. exists authorNode. by repeat split. Qed.

(** C4 (amended): [createOperationName "getAuthor"] is [GET_AUTHOR], and
    for a node whose selection is the simple fields [id] and [name],
    [createScript] without parameters returns exactly
    [query GET_AUTHOR  { getAuthor {id name} }]: the node is serialized
    by [build(false)], without its entry name. *)
Theorem createScript_getAuthor n :
  _simple n = ["id"; "name"] -> _complex n = [] ->
  createOperationName "getAuthor" = "GET_AUTHOR"
  /\ createScript query "getAuthor" (Some (SchemaNode n)) []
     = "query GET_AUTHOR  { getAuthor {id name} }".
Proof.
  intros Hs Hc. split; [reflexivity|].
  rewrite createScript_shape. unfold resultText, build. rewrite Hs, Hc.
  reflexivity.
Qed.

Lemma createScript_getAuthor_witness :
  createOperationName "getAuthor" = "GET_AUTHOR"
  /\ createScript query "getAuthor" (Some (SchemaNode authorNode)) []
     = "query GET_AUTHOR  { getAuthor {id name} }".
Proof. apply (createScript_getAuthor authorNode); reflexivity. Defined.

(** C10: for every kind, name and parameter mapping, an absent result
    schema puts the text [null] in the result position of the document,
    right after the argument list; [createScript("query", "getX")] is
    [query GET_X  { getX null }]. *)
Theorem createScript_absent_result kind name ps :
  createScript kind name None ps
  = scriptTypeText kind +:+ " " +:+ createOperationName name +:+ " "
    +:+ declarationList Text.newline ps
    +:+ " { " +:+ name +:+ " " +:+ argumentList ps +:+ "null" +:+ " }"
  /\ createScript query "getX" None [] = "query GET_X  { getX null }".
Proof. split; [apply createScript_shape|reflexivity]. Qed.

(** * The registry is fixed, the selection stays inside it *)

Section Invariant.

Lemma sameRegistry_refl a : sameRegistry a a.
Proof. by repeat split. Qed.

Lemma sameRegistry_trans a b c :
  sameRegistry a b -> sameRegistry b c -> sameRegistry a c.
Proof. intros (?&?&?) (?&?&?). repeat split; congruence. Qed.

Lemma sameRegistry_originSimple a b :
  sameRegistry a b -> originSimple a = originSimple b.
Proof. intros (_&H&_). unfold originSimple. by rewrite H. Qed.

Lemma sameRegistry_originComplexKeys a b :
  sameRegistry a b -> originComplexKeys a = originComplexKeys b.
Proof. intros (_&_&H). unfold originComplexKeys. by rewrite H. Qed.

(** A new selection inside the same registry keeps the invariant. *)
Lemma wf_reselect a b :
  sameRegistry a b -> wf a ->
  NoDup (_simple b) -> NoDup (JsMap.keys (_complex b)) ->
  (forall f, f ∈ _simple b -> f ∈ originSimple a) ->
  (forall f, f ∈ JsMap.keys (_complex b) -> f ∈ originComplexKeys a) ->
  wf b.
Proof.
  intros Hreg [] ? ? ? ?.
  pose proof (sameRegistry_originSimple _ _ Hreg) as Hos.
  pose proof (sameRegistry_originComplexKeys _ _ Hreg) as Hoc.
  destruct Hreg as (_ & Hs & _).
  constructor; rewrite <- ?Hos, <- ?Hoc, <- ?Hs; auto.
Qed.

Lemma forEach_invariant {A S : Type} (P : S -> Prop)
  (f : A -> S -> result S) (l : list A) :
  (forall a s s', P s -> f a s = Ok s' -> P s') ->
  forall s s', P s -> forEach f l s = Ok s' -> P s'.
Proof.
  intros Hf. induction l as [|a l IH]; intros s s' Hs H; simpl in H.
  - by injection H as <-.
  - destruct (f a s) as [s1|] eqn:E; simpl in H; [|done].
    eapply IH; [|exact H]. by eapply Hf.
Qed.

Lemma originComplexHas_keys f this :
  originComplexHas f this = true <-> f ∈ originComplexKeys this.
Proof.
  unfold originComplexHas, originComplexKeys.
  destruct (_originComplex this); [apply map_has_elem_of|].
  split; [done|]. intros H. by apply elem_of_nil in H.
Qed.

Lemma originSimpleHas_elem f this :
  originSimpleHas f this = true <-> f ∈ originSimple this.
Proof.
  unfold originSimpleHas, originSimple.
  destruct (_originSimple this); simpl; [apply has_elem_of|].
  split; [done|]. intros H. by apply elem_of_nil in H.
Qed.

Lemma remove_registry field this : sameRegistry this (remove field this).
Proof. by repeat split. Qed.

Lemma clear_registry this : sameRegistry this (clear this).
Proof. by repeat split. Qed.

Lemma addComplex_registry complex this :
  sameRegistry this (addComplex complex this).
Proof.
  unfold addComplex. destruct complex as [c|]; [|apply sameRegistry_refl].
  destruct (name c) as [cname|]; [|apply sameRegistry_refl].
  destruct (Text.truthy cname); [|apply sameRegistry_refl].
  destruct (originComplexHas cname this); by repeat split.
Qed.

Lemma addComplex_simple complex this :
  _simple (addComplex complex this) = _simple this.
Proof.
  unfold addComplex. destruct complex as [c|]; [|done].
  destruct (name c) as [cname|]; [|done].
  destruct (Text.truthy cname); [|done].
  by destruct (originComplexHas cname this).
Qed.

Lemma addComplex_wf complex this : wf this -> wf (addComplex complex this).
Proof.
  intros Hwf. unfold addComplex. destruct complex as [c|]; [|done].
  destruct (name c) as [cname|]; [|done].
  destruct (Text.truthy cname); [|done].
  destruct (originComplexHas cname this) eqn:E; [|done].
  apply originComplexHas_keys in E.
  apply (wf_reselect this); simpl; try apply Hwf; [by repeat split| |].
  - apply NoDup_keys_set, Hwf.
  - intros f [->|Hf]%elem_of_keys_set; [done|by apply Hwf].
Qed.

Lemma attachNew_Ok init field this this' :
  attachNew init field this = Ok this' ->
  exists child, init field = Ok child /\ this' = addComplex (Some child) this.
Proof.
  unfold attachNew, rbind. destruct (init field) as [child|]; [|done].
  intros [= <-]. eauto.
Qed.

Lemma attachNew_registry init field this this' :
  attachNew init field this = Ok this' -> sameRegistry this this'.
Proof. intros (child & _ & ->)%attachNew_Ok. apply addComplex_registry. Qed.

Lemma attachNew_simple init field this this' :
  attachNew init field this = Ok this' -> _simple this' = _simple this.
Proof. intros (child & _ & ->)%attachNew_Ok. apply addComplex_simple. Qed.

Lemma attachNew_wf init field this this' :
  attachNew init field this = Ok this' -> wf this -> wf this'.
Proof. intros (child & _ & ->)%attachNew_Ok. apply addComplex_wf. Qed.

Lemma attached_refl this : attached this this.
Proof. split; [apply sameRegistry_refl|done]. Qed.

Lemma attached_step this t init field t' :
  attached this t -> attachNew init field t = Ok t' -> attached this t'.
Proof.
  intros (Hr & Hs & Hw) H. split; [|split].
  - eapply sameRegistry_trans; [exact Hr|by eapply attachNew_registry].
  - erewrite attachNew_simple; [exact Hs|exact H].
  - intros Hwf. eapply attachNew_wf; [exact H|auto].
Qed.

Lemma groupFields_fold this (fields : list string) (acc : GroupedFields) :
  let g := fold_left (fun a f => push (classify this f) f a) fields acc in
  (forall f, f ∈ groupCOMPLEX g ->
             f ∈ groupCOMPLEX acc \/ (f ∈ fields /\ classify this f = COMPLEX))
  /\ (forall f, f ∈ groupSIMPLE g ->
                f ∈ groupSIMPLE acc \/ (f ∈ fields /\ classify this f = SIMPLE)).
Proof.
  revert acc. induction fields as [|x fields IH]; intros acc; simpl.
  - auto.
  - destruct (IH (push (classify this x) x acc)) as [HC HS]. split.
    + intros f Hf. destruct (HC f Hf) as [Hacc|[Hin Hcl]].
      * destruct (classify this x) eqn:E; simpl in Hacc; auto.
        apply elem_of_app in Hacc as [?|Hx%list_elem_of_singleton]; [auto|].
        subst f. right. split; [by left|done].
      * right. split; [by right|done].
    + intros f Hf. destruct (HS f Hf) as [Hacc|[Hin Hcl]].
      * destruct (classify this x) eqn:E; simpl in Hacc; auto.
        apply elem_of_app in Hacc as [?|Hx%list_elem_of_singleton]; [auto|].
        subst f. right. split; [by left|done].
      * right. split; [by right|done].
Qed.

Lemma groupSIMPLE_simple this fields f :
  f ∈ groupSIMPLE (groupFields this fields) -> f ∈ originSimple this.
Proof.
  intros H. destruct (groupFields_fold this fields (mkGrouped [] [] [])) as [_ HS].
  destruct (HS f H) as [Hnil|[_ Hcl]]; [by apply elem_of_nil in Hnil|].
  unfold classify in Hcl. destruct (originComplexHas f this).
  - by destruct (negb _).
  - destruct (originSimpleHas f this) eqn:E; [|done].
    by apply originSimpleHas_elem.
Qed.

Lemma fold_simple_add (l : list string) this :
  let this' := fold_left (fun t e => withSimple (JsSet.add e (_simple t)) t) l this in
  sameRegistry this this'
  /\ _complex this' = _complex this
  /\ _simple this' = fold_left (fun a e => JsSet.add e a) l (_simple this).
Proof.
  revert this. induction l as [|x l IH]; intros this; simpl.
  - by repeat split.
  - destruct (IH (withSimple (JsSet.add x (_simple this)) this)) as (Hr & Hc & Hs).
    split; [|split]; [|exact Hc|exact Hs].
    eapply sameRegistry_trans; [|exact Hr]. by repeat split.
Qed.

Lemma add_attached fields this this1 :
  forEach
    (fun e t =>
       match originComplexGet e t with
       | Some builderInit => attachNew builderInit e t
       | None => Ok t
       end) fields this = Ok this1 ->
  attached this this1.
Proof.
  apply (forEach_invariant (attached this)); [|apply attached_refl].
  intros e t t' Ht H. destruct (originComplexGet e t).
  - by eapply attached_step.
  - by injection H as <-.
Qed.

Lemma add_registry fields this this' :
  add fields this = Ok this' -> sameRegistry this this'.
Proof.
  unfold add. destruct (forEach _ _ this) as [this1|] eqn:E; simpl; [|done].
  intros [= <-]. apply add_attached in E as (Hr & _).
  eapply sameRegistry_trans; [exact Hr|apply fold_simple_add].
Qed.

Lemma add_wf fields this this' :
  add fields this = Ok this' -> wf this -> wf this'.
Proof.
  unfold add. destruct (forEach _ _ this) as [this1|] eqn:E; simpl; [|done].
  intros [= <-] Hwf. apply add_attached in E as (Hr & Hs & Hw).
  specialize (Hw Hwf).
  destruct (fold_simple_add (groupSIMPLE (groupFields this fields)) this1)
    as (Hr' & Hc' & Hs').
  apply (wf_reselect this1); [done|done| | | |].
  - rewrite Hs'. apply NoDup_fold_add, Hw.
  - rewrite Hc'. apply Hw.
  - intros f. rewrite Hs'. intros [Hf|Hf]%elem_of_fold_add.
    + by apply Hw.
    + rewrite <- (sameRegistry_originSimple _ _ Hr).
      by eapply groupSIMPLE_simple.
  - intros f. rewrite Hc'. apply Hw.
Qed.

Lemma useSimpleOnly_attached (oc : list (string * BuilderInit)) this this' :
  forEach (fun kv => attachNew (snd kv) (fst kv)) oc this = Ok this' ->
  attached this this'.
Proof.
  apply (forEach_invariant (attached this)); [|apply attached_refl].
  intros kv t t' Ht H. by eapply attached_step.
Qed.

Lemma useSimpleOnly_registry b this this' :
  useSimpleOnly b this = Ok this' -> sameRegistry this this'.
Proof.
  unfold useSimpleOnly.
  set (this1 := match _originSimple this with
                | Some os => withSimple _ this
                | None => this
                end).
  assert (sameRegistry this this1) as H1.
  { subst this1. destruct (_originSimple this); by repeat split. }
  destruct (_originComplex this1) as [oc|].
  - destruct b.
    + intros H%useSimpleOnly_attached. destruct H as (Hr & _).
      eapply sameRegistry_trans; [exact H1|].
      eapply sameRegistry_trans; [|exact Hr]. by repeat split.
    + intros [= <-]. eapply sameRegistry_trans; [exact H1|]. by repeat split.
  - by intros [= <-].
Qed.

Lemma useSimpleOnly_wf b this this' :
  useSimpleOnly b this = Ok this' -> wf this -> wf this'.
Proof.
  unfold useSimpleOnly. intros H Hwf.
  set (this1 := match _originSimple this with
                | Some os => withSimple _ this
                | None => this
                end) in H.
  assert (wf this1) as Hwf1.
  { subst this1. destruct (_originSimple this) as [os|] eqn:Eos; [|done].
    apply (wf_reselect this); simpl; try apply Hwf; [by repeat split| |].
    - apply NoDup_fold_add, NoDup_nil_2.
    - intros f [Hf|Hf]%elem_of_fold_add; [by apply elem_of_nil in Hf|].
      unfold originSimple. by rewrite Eos. }
  destruct (_originComplex this1) as [oc|]; [|by injection H as <-].
  assert (wf (withComplex [] this1)) as Hwf2.
  { apply (wf_reselect this1); simpl; try apply Hwf1; [by repeat split| |].
    - apply NoDup_nil_2.
    - intros f Hf. by apply elem_of_nil in Hf. }
  destruct b; [|by injection H as <-].
  apply useSimpleOnly_attached in H as (_ & _ & Hw). auto.
Qed.

Lemma remove_wf field this : wf this -> wf (remove field this).
Proof.
  intros Hwf. apply (wf_reselect this); simpl; [by repeat split|done| | | |].
  - apply NoDup_delete, Hwf.
  - rewrite keys_delete. apply NoDup_delete, Hwf.
  - intros f [_ Hf]%elem_of_delete. by apply Hwf.
  - intros f. rewrite keys_delete. intros [_ Hf]%elem_of_delete. by apply Hwf.
Qed.

Lemma clear_wf this : wf this -> wf (clear this).
Proof.
  intros Hwf. apply (wf_reselect this); simpl;
    [by repeat split|done|apply NoDup_nil_2|apply NoDup_nil_2| |];
    intros f Hf; by apply elem_of_nil in Hf.
Qed.

Lemma step_registry o this this' :
  step o this = Ok this' -> sameRegistry this this'.
Proof.
  destruct o; simpl.
  - apply add_registry.
  - intros [= <-]. apply remove_registry.
  - unfold set. intros H%add_registry.
    eapply sameRegistry_trans; [apply clear_registry|exact H].
  - intros [= <-]. apply clear_registry.
  - intros [= <-]. apply addComplex_registry.
  - destruct (getComplex field this); simpl; [|done].
    intros [= <-]. apply sameRegistry_refl.
  - apply useSimpleOnly_registry.
  - intros [= <-]. apply sameRegistry_refl.
Qed.

Lemma step_wf o this this' : step o this = Ok this' -> wf this -> wf this'.
Proof.
  destruct o; simpl.
  - apply add_wf.
  - intros [= <-]. apply remove_wf.
  - unfold set. intros H Hwf. eapply add_wf; [exact H|by apply clear_wf].
  - intros [= <-]. apply clear_wf.
  - intros [= <-]. apply addComplex_wf.
  - destruct (getComplex field this); simpl; [|done]. by intros [= <-].
  - apply useSimpleOnly_wf.
  - by intros [= <-].
Qed.

Lemma run_registry ops this this' :
  run ops this = Ok this' -> sameRegistry this this'.
Proof.
  unfold run. apply (forEach_invariant (sameRegistry this)).
  - intros o s s' Hs H. eapply sameRegistry_trans; [exact Hs|].
    by eapply step_registry.
  - apply sameRegistry_refl.
Qed.

Lemma run_wf ops this this' : run ops this = Ok this' -> wf this -> wf this'.
Proof.
  intros H Hwf. revert H. unfold run. apply (forEach_invariant wf); [|done].
  intros o s s' Hs H. by eapply step_wf.
Qed.

End Invariant.

(** * Construction *)

Section Construction.

(** The guard of lines 53-55 is never taken: [_originComplex] is either
    [undefined], and [undefined === 0] is false, or a map built from a
    non-empty array. *)
Lemma constructor_guard_dead sf nm init cx :
  constructor sf nm init cx
  = match init with
    | _ :: _ => add init (blank sf nm cx)
    | [] => useSimpleOnly false (blank sf nm cx)
    end.
Proof.
  unfold constructor, blank, newOriginSimple, newOriginComplex.
  destruct cx as [|kv cx].
  - by rewrite Bool.andb_false_r.
  - assert (Nat.eqb (List.length (JsMap.ofList (kv :: cx))) 0 = false) as ->.
    { apply Nat.eqb_neq. intros H%length_zero_iff_nil.
      by apply ofList_not_nil in H. }
    by rewrite Bool.andb_false_r.
Qed.

Lemma elem_of_fold_delete {V} y (oc : list (string * V)) (s : list string) :
  y ∈ fold_left (fun acc kv => JsSet.delete (fst kv) acc) oc s
  <-> y ∈ s /\ y ∉ JsMap.keys oc.
Proof.
  revert s. induction oc as [|[k v] oc IH]; intros s; simpl.
  - split; [intros H; split; [done|apply not_elem_of_nil]|by intros [? _]].
  - rewrite IH, elem_of_delete, not_elem_of_cons. tauto.
Qed.

Lemma NoDup_fold_delete {V} (oc : list (string * V)) (s : list string) :
  NoDup s -> NoDup (fold_left (fun acc kv => JsSet.delete (fst kv) acc) oc s).
Proof.
  revert s. induction oc as [|[k v] oc IH]; intros s H; simpl; [done|].
  apply IH. by apply NoDup_delete.
Qed.

Lemma originComplexKeys_blank sf nm cx f :
  f ∈ originComplexKeys (blank sf nm cx) <-> f ∈ map fst cx.
Proof.
  unfold originComplexKeys, blank, newOriginComplex. simpl.
  destruct cx as [|kv cx]; [done|]. apply elem_of_keys_ofList.
Qed.

Lemma originSimple_blank sf nm cx f :
  f ∈ originSimple (blank sf nm cx) <-> f ∈ sf /\ f ∉ map fst cx.
Proof.
  unfold originSimple, blank, newOriginSimple, newOriginComplex. simpl.
  destruct cx as [|kv cx].
  - rewrite elem_of_ofList. split; [|by intros [? _]].
    intros H. split; [done|apply not_elem_of_nil].
  - rewrite elem_of_fold_delete, elem_of_ofList, elem_of_keys_ofList. done.
Qed.

Lemma blank_wf sf nm cx : wf (blank sf nm cx).
Proof.
  constructor.
  - by eexists.
  - unfold originSimple, blank, newOriginSimple. simpl.
    destruct (newOriginComplex cx);
      [apply NoDup_fold_delete|]; apply NoDup_ofList.
  - unfold originComplexKeys, blank, newOriginComplex. simpl.
    destruct cx; [apply NoDup_nil_2|apply NoDup_keys_ofList].
  - intros f Hf%originComplexKeys_blank [_ Hs]%originSimple_blank. done.
  - apply NoDup_nil_2.
  - apply NoDup_nil_2.
  - intros f Hf. by apply elem_of_nil in Hf.
  - intros f Hf. by apply elem_of_nil in Hf.
Qed.

Lemma constructor_wf sf nm init cx this :
  constructor sf nm init cx = Ok this -> wf this.
Proof.
  rewrite constructor_guard_dead. destruct init.
  - intros H. eapply useSimpleOnly_wf; [exact H|apply blank_wf].
  - intros H. eapply add_wf; [exact H|apply blank_wf].
Qed.

Lemma constructor_registry sf nm init cx this :
  constructor sf nm init cx = Ok this -> sameRegistry (blank sf nm cx) this.
Proof.
  rewrite constructor_guard_dead. destruct init.
  - apply useSimpleOnly_registry.
  - apply add_registry.
Qed.

End Construction.

(** * What [add] does with a list of names *)

Section Grouping.

Lemma groupFields_filter_acc this (fields : list string) acc :
  fold_left (fun a f => push (classify this f) f a) fields acc
  = mkGrouped
      (groupCOMPLEX acc ++ List.filter (fun f => isKey COMPLEX (classify this f)) fields)
      (groupSIMPLE acc ++ List.filter (fun f => isKey SIMPLE (classify this f)) fields)
      (groupUNDEFINED acc ++ List.filter (fun f => isKey UNDEFINED (classify this f)) fields).
Proof.
  revert acc. induction fields as [|x fields IH]; intros acc; simpl.
  - rewrite !app_nil_r. by destruct acc.
  - rewrite IH. destruct (classify this x); simpl;
      by rewrite <- ?app_assoc.
Qed.

Lemma groupFields_filter this (fields : list string) :
  groupFields this fields
  = mkGrouped
      (List.filter (fun f => isKey COMPLEX (classify this f)) fields)
      (List.filter (fun f => isKey SIMPLE (classify this f)) fields)
      (List.filter (fun f => isKey UNDEFINED (classify this f)) fields).
Proof. unfold groupFields. by rewrite groupFields_filter_acc. Qed.

Lemma filter_none {A} (p : A -> bool) (l : list A) :
  (forall x, x ∈ l -> p x = false) -> List.filter p l = [].
Proof.
  induction l as [|x l IH]; intros H; [done|]. simpl.
  rewrite (H x) by by left. apply IH. intros y Hy. apply H. by right.
Qed.

Lemma classify_unknown this f :
  f ∉ originSimple this -> f ∉ originComplexKeys this ->
  classify this f = UNDEFINED.
Proof.
  intros Hs Hc. unfold classify.
  destruct (originComplexHas f this) eqn:Ec.
  { by apply originComplexHas_keys in Ec. }
  destruct (originSimpleHas f this) eqn:Es; [|done].
  by apply originSimpleHas_elem in Es.
Qed.

Lemma withSimple_id this : withSimple (_simple this) this = this.
Proof. by destruct this. Qed.

(** Names that classify as [UNDEFINED] only: nothing happens. *)
Lemma add_undefined fields this :
  (forall f, f ∈ fields -> classify this f = UNDEFINED) ->
  add fields this = Ok this.
Proof.
  intros H. unfold add. rewrite groupFields_filter. simpl.
  rewrite !filter_none; [done| |]; intros f Hf; by rewrite (H f Hf).
Qed.

End Grouping.

(** * Stored entries are texts of named children *)

Section NamedEntries.

Lemma elem_of_set_inv {V} k (v : V) k' v' (m : list (string * V)) :
  (k', v') ∈ JsMap.set k v m -> (k', v') = (k, v) \/ (k', v') ∈ m.
Proof.
  induction m as [|[k0 v0] m IH]; simpl.
  - intros H%list_elem_of_singleton. by left.
  - destruct (String.eqb k k0).
    + intros [->|H]%elem_of_cons; [by left|]. right. by right.
    + intros [->|H]%elem_of_cons; [right; by left|].
      destruct (IH H) as [?|?]; [by left|]. right. by right.
Qed.

Lemma addComplex_entriesNamed complex this :
  entriesNamed this -> entriesNamed (addComplex complex this).
Proof.
  intros Hn. unfold addComplex. destruct complex as [c|]; [|done].
  destruct (name c) as [cname|] eqn:Ename; [|done].
  destruct (Text.truthy cname); [|done].
  destruct (originComplexHas cname this); [|done].
  intros k v [[= -> ->]|Hin]%elem_of_set_inv; [|by apply Hn].
  by exists c.
Qed.

Lemma attachNew_entriesNamed init field this this' :
  attachNew init field this = Ok this' -> entriesNamed this -> entriesNamed this'.
Proof. intros (child & _ & ->)%attachNew_Ok. apply addComplex_entriesNamed. Qed.

Lemma add_entriesNamed fields this this' :
  add fields this = Ok this' -> entriesNamed this -> entriesNamed this'.
Proof.
  unfold add. destruct (forEach _ _ this) as [this1|] eqn:E; simpl; [|done].
  intros [= <-] Hn.
  assert (entriesNamed this1) as Hn1.
  { revert E. apply (forEach_invariant entriesNamed); [|done].
    intros e t t' Ht H. destruct (originComplexGet e t).
    - by eapply attachNew_entriesNamed.
    - by injection H as <-. }
  destruct (fold_simple_add (groupSIMPLE (groupFields this fields)) this1)
    as (_ & Hc & _).
  unfold entriesNamed. by rewrite Hc.
Qed.

Lemma useSimpleOnly_entriesNamed b this this' :
  useSimpleOnly b this = Ok this' -> entriesNamed this -> entriesNamed this'.
Proof.
  unfold useSimpleOnly. intros H Hn.
  set (this1 := match _originSimple this with
                | Some os => withSimple _ this
                | None => this
                end) in H.
  assert (entriesNamed this1) as Hn1.
  { subst this1. by destruct (_originSimple this). }
  destruct (_originComplex this1) as [oc|]; [|by injection H as <-].
  assert (entriesNamed (withComplex [] this1)) as Hn2.
  { intros k v Hin. by apply elem_of_nil in Hin. }
  destruct b; [|by injection H as <-].
  revert H. apply (forEach_invariant entriesNamed); [|done].
  intros kv t t' Ht H. by eapply attachNew_entriesNamed.
Qed.

Lemma remove_entriesNamed field this :
  entriesNamed this -> entriesNamed (remove field this).
Proof.
  intros Hn k v Hin. simpl in Hin. unfold JsMap.delete in Hin.
  apply list_elem_of_In, List.filter_In in Hin as [Hin _].
  apply Hn. by apply list_elem_of_In.
Qed.

Lemma clear_entriesNamed this : entriesNamed (clear this).
Proof. intros k v Hin. by apply elem_of_nil in Hin. Qed.

Lemma step_entriesNamed o this this' :
  step o this = Ok this' -> entriesNamed this -> entriesNamed this'.
Proof.
  destruct o; simpl.
  - apply add_entriesNamed.
  - intros [= <-]. apply remove_entriesNamed.
  - unfold set. intros H _. eapply add_entriesNamed; [exact H|].
    apply clear_entriesNamed.
  - intros [= <-] _. apply clear_entriesNamed.
  - intros [= <-]. apply addComplex_entriesNamed.
  - destruct (getComplex field this); simpl; [|done]. by intros [= <-].
  - apply useSimpleOnly_entriesNamed.
  - by intros [= <-].
Qed.

Lemma run_entriesNamed ops this this' :
  run ops this = Ok this' -> entriesNamed this -> entriesNamed this'.
Proof.
  intros H Hn. revert H. unfold run.
  apply (forEach_invariant entriesNamed); [|done].
  intros o s s' Hs H. by eapply step_entriesNamed.
Qed.

Lemma constructor_entriesNamed sf nm init cx this :
  constructor sf nm init cx = Ok this -> entriesNamed this.
Proof.
  assert (entriesNamed (blank sf nm cx)) as Hb.
  { intros k v Hin. by apply elem_of_nil in Hin. }
  rewrite constructor_guard_dead. destruct init.
  - intros H. by eapply useSimpleOnly_entriesNamed.
  - intros H. by eapply add_entriesNamed.
Qed.

End NamedEntries.

(** * Serialization *)

Lemma build_selectionText b this :
  build b this
  = entryPrefix b this
    +:+ selectionText (_simple this) (JsMap.values (_complex this)).
Proof.
  unfold build, entryPrefix, selectionText. f_equal.
  destruct (_simple this) as [|s ss], (JsMap.values (_complex this)) as [|c cs];
    try done.
  - by rewrite app_nil_r.
  - rewrite length_app. cbn [List.length Nat.add]. rewrite join_app by done.
    by rewrite !append_assoc.
Qed.

(** C2: after any sequence of calls on a node ([add], [set],
    [addComplex] and the others, simple and complex names in whatever
    interleaving), [build] gives the entry prefix, then, inside one pair
    of braces, the selected simple tokens in the order of [_simple]
    followed by the stored complex strings in the order of [_complex],
    single spaces between them; with nothing selected it gives the entry
    prefix alone, without braces. *)
Theorem build_simple_before_complex this ops this' b :
  run ops this = Ok this' ->
  build b this'
  = entryPrefix b this
    +:+ selectionText (_simple this') (JsMap.values (_complex this'))
  /\ build b (clear this') = entryPrefix b this.
Proof.
  intros Hrun. apply run_registry in Hrun as (Hn & _).
  rewrite !build_selectionText. unfold entryPrefix. simpl name. rewrite Hn.
  split; [done|]. simpl. apply append_nil_r.
Qed.

(** The complex name [books] is added before the simple name [name];
    the text has [name] first. *)
Lemma build_simple_before_complex_witness :
  build true sampleState = "author {name books {title}}"
  /\ build true (clear sampleState) = "author ".
Proof.
  apply (build_simple_before_complex authorNode sampleCalls sampleState true).
  reflexivity.
Defined.

(** * Claims on construction and on the selection invariant *)

(** C1 (code defect): a constructor call with no simple field and no
    complex pair does not fail; it returns a node with an empty registry
    and an empty selection, whatever the name and the initial fields.
    The guard that should throw [Schema does not include fields] compares
    [undefined] with zero. *)
Theorem constructor_empty_registry_accepted nm init :
  constructor [] nm init [] = Ok (mkSchemaBuilder nm [] [] (Some []) None).
Proof.
  rewrite constructor_guard_dead. destruct init as [|f init]; [reflexivity|].
  apply (add_undefined (f :: init) (blank [] nm [])).
  intros x _. apply classify_unknown; apply not_elem_of_nil.
Qed.

(** C8: in every state reached from a constructed node by any sequence
    of public calls, the selected simple names are among the registered
    simple names and the keys of the selected complex map are among the
    registered complex names; the registry itself is the one the
    constructor computed. *)
Theorem selection_within_registry sf nm init cx this0 ops this :
  constructor sf nm init cx = Ok this0 ->
  run ops this0 = Ok this ->
  (forall f, f ∈ _simple this -> f ∈ originSimple this)
  /\ (forall f, f ∈ JsMap.keys (_complex this) -> f ∈ originComplexKeys this)
  /\ sameRegistry (blank sf nm cx) this.
Proof.
  intros Hnew Hrun.
  pose proof (run_wf _ _ _ Hrun (constructor_wf _ _ _ _ _ Hnew)) as Hwf.
  split; [apply Hwf|]. split; [apply Hwf|].
  eapply sameRegistry_trans; [by eapply constructor_registry|].
  by eapply run_registry.
Qed.

Lemma selection_within_registry_witness :
  (forall f, f ∈ _simple sampleState -> f ∈ originSimple sampleState)
  /\ (forall f, f ∈ JsMap.keys (_complex sampleState) ->
                f ∈ originComplexKeys sampleState)
  /\ sameRegistry
       (blank ["id"; "name"; "books"] (Some "author")
          [("books", fun e => BookSchemaBuilder (Some e) [])])
       sampleState.
Proof.
  apply (selection_within_registry ["id"; "name"; "books"] (Some "author") []
           [("books", fun e => BookSchemaBuilder (Some e) [])]
           authorNode sampleCalls sampleState); reflexivity.
Defined.

Lemma build_of_named c k :
  name c = Some k ->
  build true c
  = k +:+ " " +:+ selectionText (_simple c) (JsMap.values (_complex c)).
Proof.
  intros H. rewrite build_selectionText. unfold entryPrefix. rewrite H.
  simpl nameText. by rewrite append_assoc.
Qed.

Lemma addComplex_fresh c f this :
  name c = Some f -> f <> "" -> f ∈ originComplexKeys this ->
  f ∉ JsMap.keys (_complex this) ->
  addComplex (Some c) this
  = withComplex (_complex this ++ [(f, build true c)]) this.
Proof.
  intros Hname Hne Hkey Hsel. unfold addComplex. rewrite Hname.
  destruct f as [|ch f]; [done|]. cbn [Text.truthy].
  apply originComplexHas_keys in Hkey. rewrite Hkey.
  by rewrite set_absent.
Qed.

(** Only [add], [set], [useSimpleOnly(true)] and an [addComplex] of a
    node of that name put a new entry under a name. *)
Lemma step_mayAttach f o this this' :
  step o this = Ok this' ->
  f ∉ JsMap.keys (_complex this) -> f ∈ JsMap.keys (_complex this') ->
  mayAttach f o.
Proof.
  intros Hstep Hout Hin.
  destruct o as [fields|g|fields| |[c|]|g|[|]|b]; simpl in *; try done.
  - injection Hstep as <-. simpl in Hin. rewrite keys_delete in Hin.
    by apply elem_of_delete in Hin as [_ ?].
  - injection Hstep as <-. by apply elem_of_nil in Hin.
  - injection Hstep as <-. unfold addComplex in Hin.
    destruct (name c) as [cname|]; [|done].
    destruct (Text.truthy cname); [|done].
    destruct (originComplexHas cname this); [|done].
    simpl in Hin. apply elem_of_keys_set in Hin as [->|?]; done.
  - by injection Hstep as <-.
  - destruct (getComplex g this); simpl in Hstep; [|done].
    by injection Hstep as <-.
  - unfold useSimpleOnly in Hstep.
    destruct (_originSimple this); simpl in Hstep;
      destruct (_originComplex this); injection Hstep as <-; simpl in Hin;
      done || by apply elem_of_nil in Hin.
  - by injection Hstep as <-.
Qed.

(** C7, as the written claim has it, fails in its middle part: [books]
    is given as a simple and as a complex field of the author registry,
    and after attaching the book node that [getComplex] returns, once
    cleared, the author builds to [author {id name books }]: [books]
    stands there without a selection of its own, token for token as in
    the text of a registry where [books] is a simple field. *)
Lemma complex_field_emitted_without_selection :
  constructor ["id"; "name"; "books"] (Some "author") []
    [("books", fun e => BookSchemaBuilder (Some e) [])] = Ok authorNode
  /\ getComplex "books" authorNode = Ok (Some sampleBook)
  /\ run [OpAddComplex (Some (clear sampleBook))] authorNode
     = Ok (withComplex [("books", "books ")] authorNode)
  /\ build true (withComplex [("books", "books ")] authorNode)
     = "author {id name books }"
  /\ constructor ["id"; "name"; "books"] (Some "author") [] []
     = Ok flatAuthorNode
  /\ build true flatAuthorNode = "author {id name books}"
  /\ tokens (build true (withComplex [("books", "books ")] authorNode))
     = tokens (build true flatAuthorNode).
Proof. do 6 (split; [vm_compute; reflexivity|]). vm_compute. reflexivity. Qed.

(** C7 (amended): a name given both in the simple-field list and among
    the complex pairs is not in the registered simple names after
    construction, and in every state reached from the constructed node:
    it is not in [_simple], so it is none of the simple tokens of
    [build]; an entry stored under it is the name, a space and the text
    of a child's selection, which is empty when the child has nothing
    selected; only [add], [set], [useSimpleOnly(true)] and [addComplex]
    of a node of that name can select it; and while it is not selected,
    [add] calls its factory and attaches the result, so that with a
    factory returning a node of that (non-empty) name both [add] and
    [getComplex] followed by [addComplex] leave the simple selection as
    it was and store the child's [build()] text as the last complex
    entry. *)
Theorem complex_precedence sf nm init cx this0 f :
  f ∈ sf -> f ∈ map fst cx ->
  constructor sf nm init cx = Ok this0 ->
  (f ∉ originSimple this0)
  /\ f ∈ originComplexKeys this0
  /\ forall ops this,
       run ops this0 = Ok this ->
       (f ∉ _simple this)
       /\ (forall b,
             build b this
             = entryPrefix b this
               +:+ selectionText (_simple this) (JsMap.values (_complex this)))
       /\ (forall v,
             (f, v) ∈ _complex this ->
             exists simple complex,
               v = f +:+ " " +:+ selectionText simple complex)
       /\ (forall o this',
             step o this = Ok this' ->
             f ∉ JsMap.keys (_complex this) ->
             f ∈ JsMap.keys (_complex this') ->
             mayAttach f o)
       /\ exists builderInit,
            originComplexGet f this = Some builderInit
            /\ (f ∉ JsMap.keys (_complex this) ->
                add [f] this = attachNew builderInit f this)
            /\ (forall child,
                  builderInit f = Ok child -> name child = Some f ->
                  f <> "" -> f ∉ JsMap.keys (_complex this) ->
                  add [f] this
                  = Ok (withComplex
                          (_complex this ++ [(f, build true child)]) this)
                  /\ getComplex f this = Ok (Some child)
                  /\ addComplex (Some child) this
                     = withComplex
                         (_complex this ++ [(f, build true child)]) this).
Proof.
  intros Hsf Hcx Hnew.
  pose proof (constructor_wf _ _ _ _ _ Hnew) as Hwf0.
  pose proof (constructor_registry _ _ _ _ _ Hnew) as Hreg0.
  assert (f ∈ originComplexKeys this0) as Hkey.
  { rewrite <- (sameRegistry_originComplexKeys _ _ Hreg0).
    by apply originComplexKeys_blank. }
  split; [by apply Hwf0|]. split; [done|].
  intros ops this Hrun.
  pose proof (run_wf _ _ _ Hrun Hwf0) as Hwf.
  pose proof (run_registry _ _ _ Hrun) as Hreg.
  rewrite (sameRegistry_originComplexKeys _ _ Hreg) in Hkey.
  split; [|split; [|split; [|split]]].
  - intros Hin. apply (wf_disjoint _ Hwf f Hkey). by apply Hwf.
  - intros b. apply build_selectionText.
  - intros v Hv.
    destruct (run_entriesNamed _ _ _ Hrun
                (constructor_entriesNamed _ _ _ _ _ Hnew) f v Hv)
      as (c & Hname & ->).
    eexists _, _. by apply build_of_named.
  - intros o this'. apply step_mayAttach.
  - assert (is_Some (originComplexGet f this)) as [builderInit Hget].
    { unfold originComplexGet. unfold originComplexKeys in Hkey.
      destruct (_originComplex this); [by apply get_is_Some|].
      by apply elem_of_nil in Hkey. }
    assert (f ∉ JsMap.keys (_complex this) ->
            add [f] this = attachNew builderInit f this) as Hadd.
    { intros Hsel. unfold add. rewrite groupFields_filter. simpl.
      assert (classify this f = COMPLEX) as ->.
      { unfold classify. pose proof Hkey as Hhas.
        apply originComplexHas_keys in Hhas. rewrite Hhas.
        apply map_has_false in Hsel. by rewrite Hsel. }
      simpl. rewrite Hget. unfold rbind.
      by destruct (attachNew builderInit f this). }
    exists builderInit. split; [done|]. split; [done|].
    intros child Hchild Hname Hne Hsel.
    pose proof (addComplex_fresh child f this Hname Hne Hkey Hsel) as Hattach.
    split; [|split; [|done]].
    + rewrite (Hadd Hsel). unfold attachNew, rbind. by rewrite Hchild, Hattach.
    + unfold getComplex, rbind. by rewrite Hget, Hchild.
Qed.

Lemma complex_precedence_witness :
  ("books" ∉ originSimple authorNode)
  /\ "books" ∈ originComplexKeys authorNode
  /\ ("books" ∉ _simple sampleState)
  /\ (forall v,
        ("books", v) ∈ _complex sampleState ->
        exists simple complex,
          v = "books" +:+ " " +:+ selectionText simple complex)
  /\ add ["books"] authorNode
     = Ok (withComplex [("books", "books {title}")] authorNode)
  /\ getComplex "books" authorNode = Ok (Some sampleBook)
  /\ addComplex (Some sampleBook) authorNode
     = withComplex [("books", "books {title}")] authorNode.
Proof.
  destruct (complex_precedence ["id"; "name"; "books"] (Some "author") []
              [("books", fun e => BookSchemaBuilder (Some e) [])]
              authorNode "books")
    as (Hos & Hkey & Hreach); [compute_done|compute_done|reflexivity|].
  split; [exact Hos|]. split; [exact Hkey|].
  destruct (Hreach sampleCalls sampleState eq_refl) as (Hs & _ & Hv & _).
  split; [exact Hs|]. split; [exact Hv|].
  destruct (Hreach [] authorNode eq_refl)
    as (_ & _ & _ & _ & init & Hget & _ & Hsel).
  injection Hget as <-.
  apply (Hsel sampleBook); [reflexivity|reflexivity|discriminate|compute_done].
Defined.

(** * Claims on invalid input *)

Lemma publisherNode_constructed :
  PublisherSchemaBuilder (Some "publisher") [] = Ok publisherNode.
Proof. reflexivity. Qed.

Lemma filter_skip {A} (p : A -> bool) (l1 l2 : list A) x :
  p x = false -> List.filter p (l1 ++ x :: l2) = List.filter p (l1 ++ l2).
Proof. intros H. rewrite !List.filter_app. simpl. by rewrite H. Qed.

(** An unknown name anywhere in the argument list of [add] is dropped. *)
Lemma add_skip_unknown l1 l2 f this :
  f ∉ originSimple this -> f ∉ originComplexKeys this ->
  add (l1 ++ f :: l2) this = add (l1 ++ l2) this.
Proof.
  intros Hs Hc. pose proof (classify_unknown _ _ Hs Hc) as Hu.
  unfold add. rewrite !groupFields_filter. simpl.
  rewrite !(filter_skip _ l1 l2 f) by by rewrite Hu. done.
Qed.

(** C9, as the written claim has it, fails for [set]: on the default
    publisher node, whose selection is [name] and [address], [set] with
    the one unknown name [doesNotExist] empties the simple selection. *)
Lemma set_unknown_field_clears :
  PublisherSchemaBuilder (Some "publisher") [] = Ok publisherNode
  /\ ("doesNotExist" ∉ originSimple publisherNode)
  /\ ("doesNotExist" ∉ originComplexKeys publisherNode)
  /\ _simple publisherNode = ["name"; "address"]
  /\ set ["doesNotExist"] publisherNode = Ok (withSimple [] publisherNode)
  /\ _simple (withSimple [] publisherNode) = [].
Proof. repeat split; compute_done. Qed.

(** C9 (amended): for every node, [add] with names that are in neither
    registry returns the node unchanged, and drops such a name from any
    argument list; [set] with only such names returns the node with both
    selections empty (it clears before it adds); [addComplex] with an
    absent value, or with a node whose name is not a registered complex
    name, returns the node unchanged; [remove] of a name that is not
    selected returns the node unchanged.  None of them fails. *)
Theorem invalid_input_ignored this :
  (forall fields,
     (forall f, f ∈ fields ->
                (f ∉ originSimple this) /\ (f ∉ originComplexKeys this)) ->
     add fields this = Ok this /\ set fields this = Ok (clear this))
  /\ (forall l1 l2 f,
        f ∉ originSimple this -> f ∉ originComplexKeys this ->
        add (l1 ++ f :: l2) this = add (l1 ++ l2) this)
  /\ addComplex None this = this
  /\ (forall c,
        (forall cname, name c = Some cname -> cname ∉ originComplexKeys this) ->
        addComplex (Some c) this = this)
  /\ (forall f,
        f ∉ _simple this -> f ∉ JsMap.keys (_complex this) ->
        remove f this = this).
Proof.
  split; [|split; [|split; [|split]]].
  - intros fields H. split.
    + apply add_undefined. intros f Hf. destruct (H f Hf).
      by apply classify_unknown.
    + unfold set. apply add_undefined. intros f Hf. destruct (H f Hf).
      by apply classify_unknown.
  - intros. by apply add_skip_unknown.
  - done.
  - intros c H. unfold addComplex. destruct (name c) as [cname|]; [|done].
    destruct (Text.truthy cname); [|done].
    destruct (originComplexHas cname this) eqn:E; [|done].
    apply originComplexHas_keys in E. by destruct (H cname).
  - intros f Hs Hc. unfold remove.
    rewrite (map_delete_absent _ _ Hc). simpl.
    rewrite (delete_absent _ _ Hs). by destruct this.
Qed.

Lemma invalid_input_ignored_witness :
  (add ["doesNotExist"] authorNode = Ok authorNode
   /\ set ["doesNotExist"] authorNode = Ok (clear authorNode))
  /\ add (["id"] ++ "doesNotExist" :: ["books"]) authorNode
     = add (["id"] ++ ["books"]) authorNode
  /\ addComplex (Some publisherNode) authorNode = authorNode
  /\ remove "books" authorNode = authorNode.
Proof.
  destruct (invalid_input_ignored authorNode) as (Hadd & Hskip & _ & Hcx & Hrm).
  split; [|split; [|split]].
  - apply (Hadd ["doesNotExist"]). intros f Hf.
    apply list_elem_of_singleton in Hf. subst f. split; compute_done.
  - apply Hskip; compute_done.
  - apply Hcx. intros cname [= <-]. compute_done.
  - apply Hrm; compute_done.
Defined.

(** * Default population *)

Section DefaultPopulation.

Lemma constructor_default sf nm cx :
  constructor sf nm [] cx
  = Ok (withSimple (newOriginSimple sf cx) (blank sf nm cx)).
Proof.
  rewrite constructor_guard_dead. unfold useSimpleOnly. simpl.
  rewrite fold_add_copy.
  - by destruct (newOriginComplex cx).
  - apply (wf_originSimple_nodup _ (blank_wf sf nm cx)).
Qed.

Lemma defaultFactory_child init e :
  defaultFactory init ->
  exists child,
    init e = Ok child /\ name child = Some e /\ defaultPopulated child.
Proof.
  intros (sf & cx & H). rewrite H, constructor_default.
  eexists. split; [done|]. by repeat split.
Qed.

(** The attaching loop of [useSimpleOnly(true)] over pairs whose
    factories return a child of the name asked for. *)
Lemma forEach_attachNew (oc : list (string * BuilderInit)) this :
  (forall kv, kv ∈ oc ->
     exists child, snd kv (fst kv) = Ok child /\ name child = Some (fst kv)) ->
  (forall k, k ∈ JsMap.keys oc -> originComplexHas k this = true) ->
  NoDup (JsMap.keys oc) ->
  (forall k, k ∈ JsMap.keys oc -> k ∉ JsMap.keys (_complex this)) ->
  forEach (fun kv => attachNew (snd kv) (fst kv)) oc this
  = Ok (withComplex (_complex this ++ flat_map defaultEntry oc) this).
Proof.
  revert this. induction oc as [|[k init] oc IH]; intros this Hf Hreg Hnd Hfresh.
  - simpl. rewrite app_nil_r. by destruct this.
  - apply NoDup_cons in Hnd as [Hk Hnd].
    destruct (Hf (k, init)) as (child & Hinit & Hname); [by left|].
    simpl in Hinit, Hname.
    change (forEach (fun kv => attachNew (snd kv) (fst kv)) ((k, init) :: oc) this)
      with (rbind (attachNew init k this)
              (forEach (fun kv => attachNew (snd kv) (fst kv)) oc)).
    unfold attachNew at 1. rewrite Hinit. unfold rbind at 1 2.
    unfold addComplex. rewrite Hname.
    change (flat_map defaultEntry ((k, init) :: oc))
      with (defaultEntry (k, init) ++ flat_map defaultEntry oc).
    unfold defaultEntry at 1. simpl fst. simpl snd. rewrite Hinit.
    destruct (Text.truthy k) eqn:Et.
    + rewrite (Hreg k) by by left.
      rewrite set_absent by (apply Hfresh; by left).
      rewrite IH.
      * simpl. by rewrite <- app_assoc.
      * intros kv Hkv. apply Hf. by right.
      * intros k' Hk'. rewrite <- (Hreg k') by by right. done.
      * done.
      * intros k' Hk'. simpl. unfold JsMap.keys. rewrite map_app.
        cbn [map fst]. rewrite elem_of_app, list_elem_of_singleton.
        intros [Hin| ->]; [|done].
        by apply (Hfresh k'); [right|].
    + rewrite IH; [done| | |done|].
      * intros kv Hkv. apply Hf. by right.
      * intros k' Hk'. apply Hreg. by right.
      * intros k' Hk'. apply Hfresh. by right.
Qed.

(** The stored entries against the registered pairs with a non-empty
    name, pair by pair in registration order. *)
Lemma defaultEntries_Forall2 (oc : list (string * BuilderInit)) :
  (forall kv, kv ∈ oc -> defaultFactory (snd kv)) ->
  Forall2
    (fun kv entry =>
       fst entry = fst kv
       /\ exists child,
            snd kv (fst kv) = Ok child /\ name child = Some (fst kv)
            /\ defaultPopulated child /\ snd entry = build true child)
    (List.filter (fun kv => Text.truthy (fst kv)) oc)
    (flat_map defaultEntry oc).
Proof.
  induction oc as [|[k init] oc IH]; intros H; [constructor|].
  simpl. unfold defaultEntry at 1. simpl.
  assert (forall kv, kv ∈ oc -> defaultFactory (snd kv)) as H'.
  { intros kv Hkv. apply H. by right. }
  destruct (Text.truthy k); [|apply IH, H'].
  destruct (defaultFactory_child init k) as (child & Hinit & Hname & Hdef).
  { apply (H (k, init)). by left. }
  rewrite Hinit. simpl. constructor; [|apply IH, H'].
  split; [done|]. by exists child.
Qed.

End DefaultPopulation.

Lemma keys_nil_inv {V} (m : list (string * V)) :
  (forall f, f ∈ JsMap.keys m -> f ∈ @nil string) -> m = [].
Proof.
  destruct m as [|[k v] m]; [done|]. intros H.
  specialize (H k). simpl in H. by apply elem_of_nil in H; [|left].
Qed.

Lemma useSimpleOnly_reset b this :
  wf this ->
  useSimpleOnly b this
  = if b
    then forEach (fun kv => attachNew (snd kv) (fst kv)) (registered this)
           (resetTo this)
    else Ok (resetTo this).
Proof.
  intros Hwf. unfold useSimpleOnly, resetTo, registered, originSimple.
  pose proof (wf_originSimple_nodup _ Hwf) as Hnd.
  pose proof (wf_complex_sub _ Hwf) as Hsub.
  unfold originSimple, originComplexKeys in *.
  destruct (wf_originSimple _ Hwf) as [os Hos]. rewrite Hos in *. simpl in *.
  rewrite (fold_add_copy _ Hnd).
  destruct (_originComplex this) as [oc|] eqn:Eoc.
  - simpl. unfold withComplex, withSimple. simpl. by rewrite Hos, Eoc.
  - apply keys_nil_inv in Hsub. unfold withSimple. rewrite Hsub, Hos, Eoc.
    by destruct b.
Qed.

(** C6, as the written claim has it, fails for a complex field
    registered under the empty name: its factory is the publisher
    factory of the examples, yet [useSimpleOnly(true)] attaches nothing
    for it. *)
Lemma useSimpleOnly_skips_empty_name :
  let init : BuilderInit := fun e => PublisherSchemaBuilder (Some e) [] in
  let this :=
    mkSchemaBuilder (Some "book") ["title"] [] (Some ["title"])
      (Some [("", init)]) in
  constructor ["title"] (Some "book") [] [("", init)] = Ok this
  /\ defaultFactory init
  /\ originComplexKeys this = [""]
  /\ useSimpleOnly true this = Ok this
  /\ _complex this = [].
Proof.
  repeat split; try reflexivity.
  exists ["name"; "address"], []. reflexivity.
Qed.

(** C6 (amended): a node constructed without initial fields selects
    exactly the registered simple names and no complex field; so does
    every reachable node after [useSimpleOnly(false)]; and after
    [useSimpleOnly(true)], when the registered factories are default
    constructor calls, the node selects the registered simple names and,
    in registration order, one entry for every registered complex field
    whose name is not empty: the serialized child its factory returns,
    itself default-populated.  A complex field registered under the empty
    name is not attached. *)
Theorem default_population sf nm init cx this0 ops this :
  constructor sf nm init cx = Ok this0 ->
  run ops this0 = Ok this ->
  (exists fresh,
     constructor sf nm [] cx = Ok fresh
     /\ sameRegistry fresh this /\ defaultPopulated fresh)
  /\ (exists this',
        useSimpleOnly false this = Ok this'
        /\ sameRegistry this this' /\ defaultPopulated this')
  /\ ((forall kv, kv ∈ registered this -> defaultFactory (snd kv)) ->
      exists this',
        useSimpleOnly true this = Ok this'
        /\ sameRegistry this this'
        /\ _simple this' = originSimple this'
        /\ Forall2
             (fun kv entry =>
                fst entry = fst kv
                /\ exists child,
                     snd kv (fst kv) = Ok child /\ name child = Some (fst kv)
                     /\ defaultPopulated child
                     /\ snd entry = build true child)
             (List.filter (fun kv => Text.truthy (fst kv)) (registered this))
             (_complex this')).
Proof.
  intros Hnew Hrun.
  pose proof (constructor_wf _ _ _ _ _ Hnew) as Hwf0.
  pose proof (run_wf _ _ _ Hrun Hwf0) as Hwf.
  assert (sameRegistry (blank sf nm cx) this) as Hreg.
  { eapply sameRegistry_trans; [by eapply constructor_registry|].
    by eapply run_registry. }
  split; [|split].
  - eexists. split; [apply constructor_default|]. split; [|done].
    eapply sameRegistry_trans; [|exact Hreg]. by repeat split.
  - exists (resetTo this). rewrite useSimpleOnly_reset by done.
    by repeat split.
  - intros Hfac. rewrite useSimpleOnly_reset by done.
    rewrite forEach_attachNew.
    + eexists. split; [done|]. split; [by repeat split|]. split; [done|].
      simpl. by apply defaultEntries_Forall2.
    + intros kv Hkv. destruct (defaultFactory_child (snd kv) (fst kv))
        as (child & ? & ? & _); [by apply Hfac|]. by exists child.
    + intros k Hk. apply originComplexHas_keys.
      unfold originComplexKeys, resetTo, registered in *. simpl.
      destruct (_originComplex this); [done|]. by apply elem_of_nil in Hk.
    + pose proof (wf_originComplex_nodup _ Hwf) as Hnd.
      unfold originComplexKeys, registered in *.
      destruct (_originComplex this); [done|]. apply NoDup_nil_2.
    + intros k _. apply not_elem_of_nil.
Qed.

Lemma default_population_witness :
  (exists fresh,
     AuthorSchemaBuilder (Some "author") [] = Ok fresh
     /\ sameRegistry fresh sampleState /\ defaultPopulated fresh)
  /\ (exists this',
        useSimpleOnly false sampleState = Ok this'
        /\ sameRegistry sampleState this' /\ defaultPopulated this')
  /\ exists this',
       useSimpleOnly true sampleState = Ok this'
       /\ _complex this' = [("books", "books {title}")].
Proof.
  destruct (default_population ["id"; "name"; "books"] (Some "author") []
              [("books", fun e => BookSchemaBuilder (Some e) [])]
              authorNode sampleCalls sampleState eq_refl eq_refl)
    as (Hfresh & Hfalse & Htrue).
  split; [exact Hfresh|]. split; [exact Hfalse|].
  destruct Htrue as (this' & Hrun & _).
  - intros kv Hkv. apply list_elem_of_singleton in Hkv. subst kv.
    exists ["title"; "publisher"],
      [("publisher", fun e => PublisherSchemaBuilder (Some e) [])].
    reflexivity.
  - exists this'. split; [exact Hrun|].
    vm_compute in Hrun. injection Hrun as <-. reflexivity.
Defined.

(** * Attachment is a snapshot *)

Section Snapshot.

Lemma update_Ok target r (h h' : heap) :
  update target r h = Ok h' ->
  exists this', r = Ok this' /\ h' = <[target := this']> h.
Proof.
  unfold update, rbind. destruct r as [this'|]; [|done].
  intros [= <-]. eauto.
Qed.

(** A call changes no object but its receiver. *)
Lemma exec_frame tc (h h' : heap) p :
  exec tc h = Ok h' -> fst tc <> p -> is_Some (h !! p) -> h' !! p = h !! p.
Proof.
  destruct tc as [target call]. unfold exec. cbn [fst snd]. intros H Hne Hp.
  assert (forall r, update target r h = Ok h' -> h' !! p = h !! p) as Hupd.
  { intros r (this' & _ & ->)%update_Ok. by apply list_lookup_insert_ne. }
  destruct (h !! target) as [this|]; [|done].
  destruct call as [fields|field|fields| |[ref|]|field|b|b]; eauto.
  - destruct (h !! ref); [eauto|done].
  - destruct (getComplex field this) as [[child|]|]; simpl in H; [| |done].
    + injection H as <-. apply lookup_app_l. by apply lookup_lt_is_Some.
    + by injection H as <-.
  - by injection H as <-.
Qed.

Lemma execAll_frame calls (h h' : heap) p :
  Forall (fun tc => fst tc <> p) calls ->
  execAll calls h = Ok h' -> is_Some (h !! p) -> h' !! p = h !! p.
Proof.
  unfold execAll. intros Hcalls. revert h.
  induction Hcalls as [|tc calls Hne _ IH]; intros h H Hp; simpl in H.
  - by injection H as <-.
  - destruct (exec tc h) as [h1|] eqn:E; simpl in H; [|done].
    pose proof (exec_frame _ _ _ _ E Hne Hp) as H1.
    rewrite <- H1. apply IH; [done|]. by rewrite H1.
Qed.

End Snapshot.

(** C5: let [p] and [c] be two distinct objects of the heap.  The call
    [p.addComplex(c)] succeeds and stores the new state of [p]; if the
    name of [c] is a non-empty registered complex name of [p], the entry
    of [p] under that name is the text [c.build()] of that moment.  After
    any later calls on [c] the state of [p], hence that entry and every
    [p.build()], are what they were; a new call [p.addComplex(c)]
    attaches the state [c] has by then. *)
Theorem attachment_is_snapshot (h : heap) p c parent child :
  p <> c -> h !! p = Some parent -> h !! c = Some child ->
  let parent1 := addComplex (Some child) parent in
  let h1 := <[p := parent1]> h in
  exec (p, CallAddComplex (Some c)) h = Ok h1
  /\ (forall cname,
        name child = Some cname -> cname <> "" ->
        cname ∈ originComplexKeys parent ->
        JsMap.get cname (_complex parent1) = Some (build true child))
  /\ forall (calls : list Call) h2,
       execAll (map (fun call => (c, call)) calls) h1 = Ok h2 ->
       h2 !! p = Some parent1
       /\ (forall b, buildAt b p h2 = Some (build b parent1))
       /\ forall child2,
            h2 !! c = Some child2 ->
            exec (p, CallAddComplex (Some c)) h2
            = Ok (<[p := addComplex (Some child2) parent1]> h2).
Proof.
  intros Hne Hp Hc parent1 h1.
  assert (h1 !! p = Some parent1) as Hp1.
  { subst h1. apply list_lookup_insert_eq. by eapply lookup_lt_Some. }
  split; [|split].
  - unfold exec. simpl. by rewrite Hp, Hc.
  - intros cname Hname Hnonempty Hkey. subst parent1. unfold addComplex.
    rewrite Hname. destruct cname as [|a cname]; [done|]. simpl Text.truthy.
    apply originComplexHas_keys in Hkey. rewrite Hkey. simpl.
    apply get_set_eq.
  - intros calls h2 Hrun.
    assert (h2 !! p = Some parent1) as Hp2.
    { rewrite <- Hp1. eapply execAll_frame; [|exact Hrun|by rewrite Hp1].
      apply Forall_forall. intros tc (call & -> & _)%list_elem_of_fmap.
      simpl. congruence. }
    split; [done|]. split.
    + intros b. unfold buildAt. by rewrite Hp2.
    + intros child2 Hc2. unfold exec. simpl. by rewrite Hp2, Hc2.
Qed.

Lemma attachment_is_snapshot_witness :
  buildAt true 0 (<[0 := addComplex (Some sampleBook) authorNode]> sampleHeap)
  = Some "author {id name books {title}}"
  /\ exists h2,
       execAll (map (fun call => (1, call)) laterCalls)
         (<[0 := addComplex (Some sampleBook) authorNode]> sampleHeap) = Ok h2
       /\ buildAt true 1 h2 = Some "books "
       /\ buildAt true 0 h2 = Some "author {id name books {title}}".
Proof.
  destruct (attachment_is_snapshot sampleHeap 0 1 authorNode sampleBook)
    as (_ & _ & Hlater); [lia|reflexivity|reflexivity|].
  split; [reflexivity|]. eexists. split; [reflexivity|]. split; [reflexivity|].
  edestruct (Hlater laterCalls) as (_ & Hbuild & _); [reflexivity|].
  apply Hbuild.
Defined.

(** * Further properties of the mutators *)

Section Mutators.

Lemma filter_sublist {A} (p : A -> bool) (l : list A) :
  sublist (List.filter p l) l.
Proof.
  induction l as [|x l IH]; simpl; [constructor|].
  destruct (p x); by constructor.
Qed.

Lemma filter_idem {A} (p : A -> bool) (l : list A) :
  List.filter p (List.filter p l) = List.filter p l.
Proof.
  induction l as [|x l IH]; [done|]. simpl.
  destruct (p x) eqn:E; simpl; rewrite ?E, IH; done.
Qed.

Lemma elem_of_map_delete {V} k k' (v : V) (m : list (string * V)) :
  (k', v) ∈ JsMap.delete k m <-> k' <> k /\ (k', v) ∈ m.
Proof.
  unfold JsMap.delete. rewrite !list_elem_of_In, List.filter_In. simpl.
  rewrite Bool.negb_true_iff, String.eqb_neq. split; intros [? ?]; split; auto.
Qed.

(** Adding names that are all in the simple selection changes nothing. *)
Lemma fold_add_present (l : list string) this :
  (forall f, f ∈ l -> f ∈ _simple this) ->
  fold_left (fun t e => withSimple (JsSet.add e (_simple t)) t) l this = this.
Proof.
  induction l as [|x l IH]; intros H; simpl; [done|].
  rewrite add_present by (apply H; by left). rewrite withSimple_id.
  apply IH. intros f Hf. apply H. by right.
Qed.


End Mutators.

(** X1: [remove] takes the name out of both selections and nothing else:
    every other simple name and every other complex entry stays, in the
    order it had; the registry is untouched; a second [remove] of the
    same name changes nothing more. *)
Theorem remove_deselects field this :
  (forall g, g ∈ _simple (remove field this) <-> g <> field /\ g ∈ _simple this)
  /\ (forall g v,
        (g, v) ∈ _complex (remove field this)
        <-> g <> field /\ (g, v) ∈ _complex this)
  /\ sublist (_simple (remove field this)) (_simple this)
  /\ sublist (_complex (remove field this)) (_complex this)
  /\ sameRegistry this (remove field this)
  /\ remove field (remove field this) = remove field this.
Proof.
  split; [|split; [|split; [|split; [|split]]]].
  - intros g. apply elem_of_delete.
  - intros g v. apply elem_of_map_delete.
  - apply filter_sublist.
  - apply filter_sublist.
  - apply remove_registry.
  - unfold remove, withSimple, withComplex, JsSet.delete, JsMap.delete. simpl.
    by rewrite !filter_idem.
Qed.

(** X2: on a node reached from a constructed one, [add] with names that
    are all selected already, simple or complex, returns the node as it
    is: a selected simple name keeps its place, a selected complex field
    keeps its stored text, and no factory is called. *)
Theorem add_selected_is_noop sf nm init cx this0 ops this fields :
  constructor sf nm init cx = Ok this0 ->
  run ops this0 = Ok this ->
  (forall f, f ∈ fields ->
             f ∈ _simple this \/ f ∈ JsMap.keys (_complex this)) ->
  add fields this = Ok this.
Proof.
  intros Hnew Hrun Hsel.
  pose proof (run_wf _ _ _ Hrun (constructor_wf _ _ _ _ _ Hnew)) as Hwf.
  assert (forall f, f ∈ fields -> isKey COMPLEX (classify this f) = false) as Hc.
  { intros f Hf. unfold classify. destruct (Hsel f Hf) as [Hs|Hk].
    - destruct (originComplexHas f this) eqn:E.
      + apply originComplexHas_keys in E.
        destruct (wf_disjoint _ Hwf f E). by apply Hwf.
      + by destruct (originSimpleHas f this).
    - pose proof (wf_complex_sub _ Hwf f Hk) as E.
      apply originComplexHas_keys in E. rewrite E.
      apply map_has_elem_of in Hk. by rewrite Hk. }
  unfold add. rewrite groupFields_filter. cbn [groupCOMPLEX groupSIMPLE].
  rewrite (filter_none _ _ Hc). cbn [forEach rbind]. f_equal.
  apply fold_add_present. intros f Hf.
  apply list_elem_of_In, List.filter_In in Hf as [Hf Hcl].
  apply list_elem_of_In in Hf. destruct (Hsel f Hf) as [?|Hk]; [done|].
  exfalso. unfold classify in Hcl.
  pose proof (wf_complex_sub _ Hwf f Hk) as E.
  apply originComplexHas_keys in E. rewrite E in Hcl.
  apply map_has_elem_of in Hk. by rewrite Hk in Hcl.
Qed.

Lemma add_selected_is_noop_witness :
  add ["books"; "name"; "books"] sampleState = Ok sampleState.
Proof.
  apply (add_selected_is_noop ["id"; "name"; "books"] (Some "author") []
           [("books", fun e => BookSchemaBuilder (Some e) [])]
           authorNode sampleCalls); [reflexivity|reflexivity|].
  intros f Hf. repeat (apply elem_of_cons in Hf as [->|Hf]);
    [right|left|right|]; try compute_done. by apply elem_of_nil in Hf.
Defined.

(** X3: on a node reached from a constructed one, removing a registered
    simple name and adding it again puts it last among the simple
    tokens, whether it was selected or not; the other simple names keep
    their order and the complex entries are untouched. *)
Theorem readd_simple_goes_last sf nm init cx this0 ops this f :
  constructor sf nm init cx = Ok this0 ->
  run ops this0 = Ok this ->
  f ∈ originSimple this ->
  run [OpRemove f; OpAdd [f]] this
  = Ok (withSimple (JsSet.delete f (_simple this) ++ [f]) this).
Proof.
  intros Hnew Hrun Hf.
  pose proof (run_wf _ _ _ Hrun (constructor_wf _ _ _ _ _ Hnew)) as Hwf.
  assert (f ∉ originComplexKeys this) as Hnc.
  { intros Hk. by destruct (wf_disjoint _ Hwf f Hk). }
  assert (remove f this = withSimple (JsSet.delete f (_simple this)) this) as Hrm.
  { unfold remove. rewrite map_delete_absent.
    - unfold withSimple, withComplex. simpl. by destruct this.
    - intros Hk. apply Hnc. by apply Hwf. }
  unfold run. simpl. rewrite Hrm. unfold add. rewrite groupFields_filter.
  assert (classify (withSimple (JsSet.delete f (_simple this)) this) f = SIMPLE)
    as Hcl.
  { unfold classify.
    assert (originComplexHas f (withSimple (JsSet.delete f (_simple this)) this)
            = false) as ->.
    { destruct (originComplexHas f _) eqn:E; [|done].
      by apply originComplexHas_keys in E. }
    assert (originSimpleHas f (withSimple (JsSet.delete f (_simple this)) this)
            = true) as ->; [|done].
    by apply originSimpleHas_elem. }
  simpl. rewrite Hcl. simpl. rewrite add_absent; [done|].
  intros [Hne _]%elem_of_delete. done.
Qed.

Lemma readd_simple_goes_last_witness :
  run [OpRemove "id"; OpAdd ["id"]] authorNode
  = Ok (withSimple ["name"; "id"] authorNode).
Proof.
  apply (readd_simple_goes_last ["id"; "name"; "books"] (Some "author") []
           [("books", fun e => BookSchemaBuilder (Some e) [])]
           authorNode [] authorNode "id"); [reflexivity|reflexivity|].
  compute_done.
Defined.



(** X5: attaching a child whose name is a non-empty registered complex
    name stores the child's text under that name and touches nothing
    else: the simple selection and every other complex entry are as
    before, and the name keeps its place among the complex entries when
    it was selected already, and goes last when it was not. *)
Theorem addComplex_replaces_in_place this c cname :
  name c = Some cname -> cname <> "" -> cname ∈ originComplexKeys this ->
  _simple (addComplex (Some c) this) = _simple this
  /\ JsMap.get cname (_complex (addComplex (Some c) this)) = Some (build true c)
  /\ (forall k, k <> cname ->
        JsMap.get k (_complex (addComplex (Some c) this))
        = JsMap.get k (_complex this))
  /\ JsMap.keys (_complex (addComplex (Some c) this))
     = if JsMap.has cname (_complex this)
       then JsMap.keys (_complex this)
       else JsMap.keys (_complex this) ++ [cname].
Proof.
  intros Hname Hne Hkey. split; [apply addComplex_simple|].
  unfold addComplex. rewrite Hname.
  destruct cname as [|ch cname]; [done|]. cbn [Text.truthy].
  apply originComplexHas_keys in Hkey. rewrite Hkey. cbn [_complex withComplex].
  split; [apply get_set_eq|]. split; [|apply keys_set].
  intros k Hk. apply get_set_ne. congruence.
Qed.

Lemma addComplex_replaces_in_place_witness :
  _simple (addComplex (Some sampleBook) sampleState) = _simple sampleState
  /\ JsMap.get "books" (_complex (addComplex (Some sampleBook) sampleState))
     = Some (build true sampleBook)
  /\ (forall k, k <> "books" ->
        JsMap.get k (_complex (addComplex (Some sampleBook) sampleState))
        = JsMap.get k (_complex sampleState))
  /\ JsMap.keys (_complex (addComplex (Some sampleBook) sampleState))
     = if JsMap.has "books" (_complex sampleState)
       then JsMap.keys (_complex sampleState)
       else JsMap.keys (_complex sampleState) ++ ["books"].
Proof.
  apply (addComplex_replaces_in_place sampleState sampleBook "books");
    [reflexivity|discriminate|compute_done].
Defined.

(** * Further properties of construction *)

Section Registry.

Lemma get_app {V} k (m1 m2 : list (string * V)) :
  JsMap.get k (m1 ++ m2)
  = match JsMap.get k m1 with
    | Some v => Some v
    | None => JsMap.get k m2
    end.
Proof.
  induction m1 as [|[k1 v1] m1 IH]; simpl; [done|].
  by destruct (String.eqb k k1).
Qed.

(** [new Map(pairs)]: of two pairs with one key the later one counts. *)
Lemma get_fold_set {V} k (l m : list (string * V)) :
  JsMap.get k (fold_left (fun acc kv => JsMap.set (fst kv) (snd kv) acc) l m)
  = match JsMap.get k (rev l) with
    | Some v => Some v
    | None => JsMap.get k m
    end.
Proof.
  revert m. induction l as [|[k1 v1] l IH]; intros m; simpl; [done|].
  rewrite IH, get_app. destruct (JsMap.get k (rev l)); [done|]. simpl.
  destruct (String.eqb_spec k k1) as [->|Hne].
  - apply get_set_eq.
  - apply get_set_ne. congruence.
Qed.

Lemma filter_filter {A} (p q : A -> bool) (l : list A) :
  List.filter p (List.filter q l) = List.filter (fun x => q x && p x) l.
Proof.
  induction l as [|x l IH]; [done|]. simpl.
  destruct (q x); simpl; [destruct (p x)|]; by rewrite IH.
Qed.

Lemma filter_ext_in {A} (p q : A -> bool) (l : list A) :
  (forall x, x ∈ l -> p x = q x) -> List.filter p l = List.filter q l.
Proof.
  induction l as [|x l IH]; intros H; [done|]. simpl.
  rewrite (H x) by by left. rewrite IH; [done|].
  intros y Hy. apply H. by right.
Qed.

Lemma filter_all {A} (p : A -> bool) (l : list A) :
  (forall x, x ∈ l -> p x = true) -> List.filter p l = l.
Proof.
  induction l as [|x l IH]; intros H; [done|]. simpl.
  rewrite (H x) by by left. rewrite IH; [done|].
  intros y Hy. apply H. by right.
Qed.

Lemma fold_delete_filter {V} (oc : list (string * V)) (s : list string) :
  fold_left (fun acc kv => JsSet.delete (fst kv) acc) oc s
  = List.filter (fun f => negb (JsSet.has f (JsMap.keys oc))) s.
Proof.
  revert s. induction oc as [|[k v] oc IH]; intros s; simpl.
  - symmetry. by apply filter_all.
  - rewrite IH. unfold JsSet.delete. rewrite filter_filter.
    apply filter_ext_in. intros x _. unfold JsSet.has. simpl.
    rewrite (String.eqb_sym x k). by rewrite Bool.negb_orb.
Qed.

Lemma has_keys_ofList {V} f (cx : list (string * V)) :
  JsSet.has f (JsMap.keys (JsMap.ofList cx)) = JsSet.has f (map fst cx).
Proof.
  destruct (JsSet.has f (map fst cx)) eqn:E.
  - apply has_elem_of. apply elem_of_keys_ofList. by apply has_elem_of.
  - apply has_false. rewrite elem_of_keys_ofList. by apply has_false.
Qed.

Lemma newOriginSimple_filter sf (cx : list (string * BuilderInit)) :
  newOriginSimple sf cx
  = List.filter (fun f => negb (JsSet.has f (map fst cx))) (JsSet.ofList sf).
Proof.
  unfold newOriginSimple, newOriginComplex. destruct cx as [|kv cx].
  - symmetry. by apply filter_all.
  - rewrite fold_delete_filter. apply filter_ext_in. intros x _.
    by rewrite has_keys_ofList.
Qed.

Lemma elem_of_fold_set_inv {V} k (v : V) (l m : list (string * V)) :
  (k, v) ∈ fold_left (fun acc kv => JsMap.set (fst kv) (snd kv) acc) l m ->
  (k, v) ∈ m \/ (k, v) ∈ l.
Proof.
  revert m. induction l as [|[k1 v1] l IH]; intros m; simpl; [by left|].
  intros [[[= -> ->]|H]%elem_of_set_inv|H]%IH.
  - right. by left.
  - by left.
  - right. by right.
Qed.

End Registry.

(** X6: the registry of a constructed node.  Its name is the one given;
    its simple names are the given ones, each once, in the order of
    their first occurrence, without the names of the complex pairs; its
    complex names are exactly the names of the pairs, each once; and of
    two pairs with one name the factory of the later pair is the one
    kept. *)
Theorem constructor_registry_contents sf nm init cx this :
  constructor sf nm init cx = Ok this ->
  name this = nm
  /\ _originSimple this
     = Some (List.filter (fun f => negb (JsSet.has f (map fst cx)))
               (JsSet.ofList sf))
  /\ (forall f, f ∈ originSimple this <-> f ∈ sf /\ f ∉ map fst cx)
  /\ (forall f, f ∈ originComplexKeys this <-> f ∈ map fst cx)
  /\ NoDup (originSimple this)
  /\ NoDup (originComplexKeys this)
  /\ (forall f, originComplexGet f this = JsMap.get f (rev cx)).
Proof.
  intros Hnew. pose proof (constructor_wf _ _ _ _ _ Hnew) as Hwf.
  pose proof (constructor_registry _ _ _ _ _ Hnew) as Hreg.
  pose proof (sameRegistry_originSimple _ _ Hreg) as Hos.
  pose proof (sameRegistry_originComplexKeys _ _ Hreg) as Hoc.
  destruct Hreg as (Hn & Hs & Hc).
  split; [by rewrite <- Hn|]. split.
  { rewrite <- Hs. simpl. by rewrite newOriginSimple_filter. }
  split; [intros f; rewrite <- Hos; apply originSimple_blank|].
  split; [intros f; rewrite <- Hoc; apply originComplexKeys_blank|].
  split; [apply Hwf|]. split; [apply Hwf|].
  intros f. unfold originComplexGet. rewrite <- Hc.
  unfold blank, newOriginComplex. cbn [_originComplex].
  destruct cx as [|kv cx]; [done|].
  unfold JsMap.ofList. rewrite get_fold_set.
  by case_match.
Qed.

Lemma constructor_registry_contents_witness :
  name authorNode = Some "author"
  /\ _originSimple authorNode = Some ["id"; "name"]
  /\ (forall f, originComplexGet f authorNode
                = JsMap.get f [("books", fun e => BookSchemaBuilder (Some e) [])]).
Proof.
  destruct (constructor_registry_contents ["id"; "name"; "books"; "id"]
              (Some "author") []
              [("books", fun e => BookSchemaBuilder (Some e) [])]
              authorNode eq_refl) as (Hn & Hs & _ & _ & _ & _ & Hg).
  split; [exact Hn|]. split; [exact Hs|exact Hg].
Defined.

(** X7: constructing with a non-empty list of initial fields is
    constructing without any and then calling [set] with that list. *)
Theorem constructor_with_fields_is_set sf nm f init cx :
  constructor sf nm (f :: init) cx
  = (this0 <-! constructor sf nm [] cx ;; set (f :: init) this0).
Proof. by rewrite constructor_guard_dead, constructor_default. Qed.

(** * Failure comes from the factories only *)

Section NoThrow.

Lemma forEach_total {A S : Type} (P : S -> Prop) (f : A -> S -> result S)
  (l : list A) :
  (forall a s, a ∈ l -> P s -> exists s', f a s = Ok s' /\ P s') ->
  forall s, P s -> exists s', forEach f l s = Ok s' /\ P s'.
Proof.
  induction l as [|a l IH]; intros Hf s Hs; simpl; [by exists s|].
  destruct (Hf a s) as (s1 & -> & Hs1); [by left|done|]. simpl.
  apply IH; [|done]. intros a' s' Ha'. apply Hf. by right.
Qed.

Lemma registered_sameRegistry a b :
  sameRegistry a b -> registered a = registered b.
Proof. intros (_ & _ & H). unfold registered. by rewrite H. Qed.

Lemma factoriesSucceed_sameRegistry a b :
  sameRegistry a b -> factoriesSucceed a -> factoriesSucceed b.
Proof.
  intros Hreg H k init. rewrite <- (registered_sameRegistry _ _ Hreg). apply H.
Qed.

Lemma originComplexGet_registered k init this :
  originComplexGet k this = Some init -> (k, init) ∈ registered this.
Proof.
  unfold originComplexGet, registered.
  destruct (_originComplex this); [apply get_elem_of|done].
Qed.

Lemma attachNew_total init k this t :
  factoriesSucceed this -> (k, init) ∈ registered this ->
  sameRegistry this t ->
  exists t', attachNew init k t = Ok t' /\ sameRegistry this t'.
Proof.
  intros Hf Hin Ht. destruct (Hf k init Hin) as (child & Hc).
  unfold attachNew, rbind. rewrite Hc. eexists. split; [done|].
  eapply sameRegistry_trans; [exact Ht|apply addComplex_registry].
Qed.

Lemma add_total fields this :
  factoriesSucceed this -> exists this', add fields this = Ok this'.
Proof.
  intros Hf. unfold add.
  destruct (forEach_total (sameRegistry this)
              (fun e t =>
                 match originComplexGet e t with
                 | Some builderInit => attachNew builderInit e t
                 | None => Ok t
                 end)
              (groupCOMPLEX (groupFields this fields))) with (s := this)
    as (this1 & -> & _); [|apply sameRegistry_refl|unfold rbind; by eexists].
  intros e t _ Ht. destruct (originComplexGet e t) as [init|] eqn:E.
  - apply attachNew_total; [done| |done].
    rewrite (registered_sameRegistry _ _ Ht).
    by apply originComplexGet_registered.
  - by exists t.
Qed.

Lemma useSimpleOnly_total b this :
  factoriesSucceed this -> exists this', useSimpleOnly b this = Ok this'.
Proof.
  intros Hf. unfold useSimpleOnly.
  set (this1 := match _originSimple this with
                | Some os => withSimple _ this
                | None => this
                end).
  assert (sameRegistry this this1) as H1.
  { subst this1. destruct (_originSimple this); by repeat split. }
  destruct (_originComplex this1) as [oc|] eqn:Eoc; [|by eexists].
  destruct b; [|by eexists].
  assert (sameRegistry this (withComplex [] this1)) as H2.
  { eapply sameRegistry_trans; [exact H1|]. by repeat split. }
  destruct (forEach_total
              (fun t => sameRegistry this t)
              (fun kv : string * BuilderInit => attachNew (snd kv) (fst kv))
              oc) with (s := withComplex [] this1)
    as (this' & Hrun & _); [|exact H2|by exists this'].
  intros [k init] t Hin Ht. apply attachNew_total; [done| |done].
  rewrite (registered_sameRegistry _ _ H1). unfold registered.
  by rewrite Eoc.
Qed.

Lemma getComplex_total field this :
  factoriesSucceed this -> exists r, getComplex field this = Ok r.
Proof.
  intros Hf. unfold getComplex.
  destruct (originComplexGet field this) as [init|] eqn:E; [|by eexists].
  destruct (Hf field init) as (child & ->);
    [by apply originComplexGet_registered|].
  by eexists.
Qed.

Lemma step_total o this :
  factoriesSucceed this ->
  exists this', step o this = Ok this' /\ factoriesSucceed this'.
Proof.
  intros Hf.
  assert (exists this', step o this = Ok this') as (this' & H).
  { destruct o; simpl; try by eexists.
    - by apply add_total.
    - unfold set. apply add_total.
      eapply factoriesSucceed_sameRegistry; [apply clear_registry|done].
    - destruct (getComplex_total field this Hf) as (r & ->). by eexists.
    - by apply useSimpleOnly_total. }
  exists this'. split; [done|].
  eapply factoriesSucceed_sameRegistry; [by eapply step_registry|done].
Qed.

End NoThrow.

(** X8: no method fails by itself.  On a node whose registered factories
    each return a node for their own name, every sequence of public
    calls runs to the end, and the factories of the node it ends in are
    the same. *)
Theorem calls_succeed_when_factories_do this ops :
  factoriesSucceed this ->
  exists this',
    run ops this = Ok this'
    /\ sameRegistry this this' /\ factoriesSucceed this'.
Proof.
  intros Hf.
  assert (exists this', run ops this = Ok this' /\ factoriesSucceed this')
    as (this' & Hrun & Hf').
  { unfold run. apply (forEach_total factoriesSucceed); [|done].
    intros o s _. apply step_total. }
  exists this'. split; [done|]. split; [by eapply run_registry|done].
Qed.

Lemma calls_succeed_when_factories_do_witness :
  exists this',
    run sampleCalls authorNode = Ok this'
    /\ sameRegistry authorNode this' /\ factoriesSucceed this'.
Proof.
  apply (calls_succeed_when_factories_do authorNode sampleCalls).
  intros k init Hin. apply list_elem_of_singleton in Hin.
  injection Hin as -> ->. by eexists.
Defined.

Lemma constructor_total sf nm init cx :
  (forall k builderInit,
     (k, builderInit) ∈ cx -> exists child, builderInit k = Ok child) ->
  exists this, constructor sf nm init cx = Ok this.
Proof.
  intros Hcx. rewrite constructor_guard_dead.
  assert (factoriesSucceed (blank sf nm cx)) as Hf.
  { intros k b. unfold registered, blank, newOriginComplex. simpl.
    destruct cx as [|kv cx]; [by intros ?%elem_of_nil|].
    intros [?%elem_of_nil|Hin]%elem_of_fold_set_inv; [done|]. by apply Hcx. }
  destruct init; [by apply useSimpleOnly_total|by apply add_total].
Qed.

(** X9: the constructor fails only through a factory.  If every complex
    pair's factory returns a node for the pair's name, construction
    returns a node with a selection inside its registry, whatever the
    simple names and the initial fields, also when there is no field at
    all. *)
Theorem constructor_succeeds_when_factories_do sf nm init cx :
  (forall k builderInit,
     (k, builderInit) ∈ cx -> exists child, builderInit k = Ok child) ->
  exists this, constructor sf nm init cx = Ok this /\ wf this.
Proof.
  intros Hcx. destruct (constructor_total sf nm init cx Hcx) as (this & H).
  exists this. split; [done|]. by eapply constructor_wf.
Qed.

Lemma constructor_succeeds_when_factories_do_witness :
  exists this,
    constructor [] (Some "author") ["books"; "isbn"]
      [("books", fun e => BookSchemaBuilder (Some e) [])] = Ok this
    /\ wf this.
Proof.
  apply constructor_succeeds_when_factories_do.
  intros k init Hin. apply list_elem_of_singleton in Hin.
  injection Hin as -> ->. by eexists.
Defined.

(** * [useSimpleOnly(true)] through [add] *)

Section Recursive.

Lemma rbind_Ok {A} (r : result A) : rbind r Ok = r.
Proof. by destruct r. Qed.

Lemma originComplexGet_sameRegistry k a b :
  sameRegistry a b -> originComplexGet k a = originComplexGet k b.
Proof. intros (_ & _ & H). unfold originComplexGet. by rewrite H. Qed.

Lemma get_of_elem {V} k (v : V) (m : list (string * V)) :
  NoDup (JsMap.keys m) -> (k, v) ∈ m -> JsMap.get k m = Some v.
Proof.
  induction m as [|[k1 v1] m IH]; simpl; intros Hnd Hin.
  - by apply elem_of_nil in Hin.
  - apply NoDup_cons in Hnd as [Hk Hnd].
    apply elem_of_cons in Hin as [[= -> ->]|Hin].
    + by rewrite String.eqb_refl.
    + destruct (String.eqb_spec k k1) as [->|Hne]; [|by apply IH].
      destruct Hk. apply list_elem_of_fmap. by exists (k1, v).
Qed.

(** Looking each name up again finds the pair's own factory. *)
Lemma forEach_keys_pairs (l : list (string * BuilderInit)) this t :
  sameRegistry this t ->
  (forall k init, (k, init) ∈ l -> originComplexGet k this = Some init) ->
  forEach
    (fun e t =>
       match originComplexGet e t with
       | Some builderInit => attachNew builderInit e t
       | None => Ok t
       end) (map fst l) t
  = forEach (fun kv => attachNew (snd kv) (fst kv)) l t.
Proof.
  revert t. induction l as [|[k init] l IH]; intros t Ht Hget; [done|].
  cbn [map fst forEach snd].
  rewrite <- (originComplexGet_sameRegistry k _ _ Ht).
  rewrite (Hget k init) by by left.
  destruct (attachNew init k t) as [t1|] eqn:E; [|done].
  cbn [rbind]. apply IH.
  - eapply sameRegistry_trans; [exact Ht|by eapply attachNew_registry].
  - intros k' init' Hin. apply Hget. by right.
Qed.

Lemma originComplexKeys_registered this :
  originComplexKeys this = map fst (registered this).
Proof.
  unfold originComplexKeys, registered. by destruct (_originComplex this).
Qed.

End Recursive.

(** X10: on a node reached from a constructed one, [useSimpleOnly(true)]
    is [useSimpleOnly(false)] followed by [add] of all the registered
    complex names, in registration order: the same node, or the same
    failure of a factory. *)
Theorem useSimpleOnly_true_is_add_all sf nm init cx this0 ops this :
  constructor sf nm init cx = Ok this0 ->
  run ops this0 = Ok this ->
  useSimpleOnly true this
  = (t <-! useSimpleOnly false this ;; add (originComplexKeys this) t).
Proof.
  intros Hnew Hrun.
  pose proof (run_wf _ _ _ Hrun (constructor_wf _ _ _ _ _ Hnew)) as Hwf.
  rewrite !useSimpleOnly_reset by done. cbn [rbind].
  unfold add. rewrite groupFields_filter. cbn [groupCOMPLEX groupSIMPLE].
  assert (forall k, k ∈ originComplexKeys this ->
                    classify (resetTo this) k = COMPLEX) as Hcl.
  { intros k Hk. unfold classify.
    assert (originComplexHas k (resetTo this) = true) as ->; [|done].
    by apply originComplexHas_keys. }
  rewrite filter_all by (intros k Hk; by rewrite Hcl).
  rewrite filter_none by (intros k Hk; by rewrite Hcl).
  cbn [fold_left]. rewrite rbind_Ok, originComplexKeys_registered.
  symmetry. apply (forEach_keys_pairs _ (resetTo this));
    [apply sameRegistry_refl|].
  intros k b Hin. pose proof (wf_originComplex_nodup _ Hwf) as Hnd.
  unfold originComplexGet, originComplexKeys, registered, resetTo in *.
  cbn [_originComplex].
  destruct (_originComplex this) as [oc|]; [by apply get_of_elem|].
  by apply elem_of_nil in Hin.
Qed.

Lemma useSimpleOnly_true_is_add_all_witness :
  useSimpleOnly true sampleState
  = (t <-! useSimpleOnly false sampleState ;;
     add (originComplexKeys sampleState) t).
Proof.
  apply (useSimpleOnly_true_is_add_all ["id"; "name"; "books"] (Some "author")
           [] [("books", fun e => BookSchemaBuilder (Some e) [])]
           authorNode sampleCalls sampleState); reflexivity.
Defined.

(** * The operation name *)

Section SnakeCase.

Lemma splitRest_cons cur s : exists x l, Text.splitRest cur s = x :: l.
Proof.
  revert cur. induction s as [|c s IH]; intros cur; simpl; [by eexists _, _|].
  destruct (Text.isUpper c); [by eexists _, _|apply IH].
Qed.

Lemma join_splitRest cur s :
  Text.join "_" (Text.splitRest cur s) = cur +:+ underscored s.
Proof.
  revert cur. induction s as [|c s IH]; intros cur; simpl.
  - by rewrite append_nil_r.
  - destruct (Text.isUpper c).
    + destruct (splitRest_cons (String c "") s) as (x & l & E).
      rewrite E, join_cons, <- E, IH. reflexivity.
    + rewrite IH, append_assoc. reflexivity.
Qed.

Lemma length_append (s t : string) :
  String.length (s +:+ t) = String.length s + String.length t.
Proof. induction s as [|c s IH]; [done|]. rewrite append_cons. simpl. by rewrite IH. Qed.

Lemma length_mapChars f s : String.length (Text.mapChars f s) = String.length s.
Proof. induction s as [|c s IH]; simpl; by rewrite ?IH. Qed.

Lemma length_underscored s :
  String.length (underscored s) = String.length s + countUpper s.
Proof.
  induction s as [|c s IH]; [done|]. simpl.
  destruct (Text.isUpper c); simpl; rewrite IH; lia.
Qed.

Lemma allChars_mapChars (p : ascii -> bool) f s :
  (forall c, p (f c) = true) -> allChars p (Text.mapChars f s) = true.
Proof. intros H. induction s as [|c s IH]; [done|]. simpl. by rewrite H, IH. Qed.

Lemma upperChar_not_lower c : negb (Text.isLower (Text.upperChar c)) = true.
Proof. destruct c as [[] [] [] [] [] [] [] []]; reflexivity. Qed.

Lemma lowerChar_not_upper c : negb (Text.isUpper (Text.lowerChar c)) = true.
Proof. destruct c as [[] [] [] [] [] [] [] []]; reflexivity. Qed.

Lemma upperChar_ascii c :
  Nat.ltb (nat_of_ascii c) 128 = true ->
  Nat.ltb (nat_of_ascii (Text.upperChar c)) 128 = true.
Proof. destruct c as [[] [] [] [] [] [] [] []]; intros H; try done; reflexivity. Qed.

Lemma lowerChar_ascii c :
  Nat.ltb (nat_of_ascii c) 128 = true ->
  Nat.ltb (nat_of_ascii (Text.lowerChar c)) 128 = true.
Proof. destruct c as [[] [] [] [] [] [] [] []]; intros H; try done; reflexivity. Qed.

Lemma allChars_append p (s t : string) :
  allChars p (s +:+ t) = allChars p s && allChars p t.
Proof.
  induction s as [|c s IH]; [done|]. rewrite append_cons. simpl.
  by rewrite IH, Bool.andb_assoc.
Qed.

Lemma allChars_underscored s :
  allChars (fun c => Nat.ltb (nat_of_ascii c) 128) s = true ->
  allChars (fun c => Nat.ltb (nat_of_ascii c) 128) (underscored s) = true.
Proof.
  induction s as [|c s IH]; [done|]. simpl.
  intros [Hc Hs]%andb_prop. destruct (Text.isUpper c); simpl; rewrite Hc;
    simpl; by apply IH.
Qed.

Lemma allChars_mapChars_ascii f s :
  (forall c, Nat.ltb (nat_of_ascii c) 128 = true ->
             Nat.ltb (nat_of_ascii (f c)) 128 = true) ->
  isAsciiText s = true -> isAsciiText (Text.mapChars f s) = true.
Proof.
  intros Hf. unfold isAsciiText. induction s as [|c s IH]; [done|]. simpl.
  intros [Hc Hs]%andb_prop. by rewrite (Hf c Hc), IH.
Qed.

End SnakeCase.

(** X11: for a text of ASCII characters, [camelToSnakeCase] puts one
    underscore before every capital letter that is not the first
    character, and then maps the case of each character; the result is
    longer than the text by the number of those capitals.  A leading
    capital gets no underscore, the empty text stays empty, and each
    capital of a run gets its own. *)
Theorem camelToSnakeCase_underscores text toUpper :
  isAsciiText text = true ->
  camelToSnakeCase text toUpper
  = Text.mapChars (if toUpper then Text.upperChar else Text.lowerChar)
      (snake text)
  /\ String.length (camelToSnakeCase text toUpper)
     = String.length text
       + countUpper (match text with
                     | EmptyString => EmptyString
                     | String _ s' => s'
                     end).
Proof.
  intros _.
  assert (Text.join "_" (Text.splitBeforeUpper text) = snake text) as H.
  { destruct text as [|c s]; [done|]. unfold Text.splitBeforeUpper, snake.
    by rewrite join_splitRest. }
  unfold camelToSnakeCase, Text.toUpperCase, Text.toLowerCase. rewrite H.
  split; [by destruct toUpper|].
  assert (String.length (snake text)
          = String.length text
            + countUpper (match text with
                          | EmptyString => EmptyString
                          | String _ s' => s'
                          end)) as <-.
  { destruct text as [|c s]; [done|]. simpl. by rewrite length_underscored. }
  destruct toUpper; apply length_mapChars.
Qed.

Lemma camelToSnakeCase_underscores_witness :
  camelToSnakeCase "getHTTPUrl" true
  = Text.mapChars Text.upperChar (snake "getHTTPUrl")
  /\ String.length (camelToSnakeCase "getHTTPUrl" true)
     = String.length "getHTTPUrl" + countUpper "etHTTPUrl".
Proof. apply (camelToSnakeCase_underscores "getHTTPUrl" true). reflexivity. Defined.

(** X12: for a text of ASCII characters, an operation name has no
    lower-case letter left, and the default (lower-case) form of
    [camelToSnakeCase] has no capital letter left; both are ASCII texts
    again. *)
Theorem camelToSnakeCase_case text :
  isAsciiText text = true ->
  allChars (fun c => negb (Text.isLower c)) (createOperationName text) = true
  /\ allChars (fun c => negb (Text.isUpper c)) (camelToSnakeCase text false)
     = true
  /\ isAsciiText (createOperationName text) = true
  /\ isAsciiText (camelToSnakeCase text false) = true.
Proof.
  intros Hascii.
  unfold createOperationName, camelToSnakeCase, Text.toUpperCase,
    Text.toLowerCase.
  split; [apply allChars_mapChars, upperChar_not_lower|].
  split; [apply allChars_mapChars, lowerChar_not_upper|].
  assert (isAsciiText (Text.join "_" (Text.splitBeforeUpper text)) = true)
    as Hjoin.
  { destruct text as [|c s]; [done|]. unfold Text.splitBeforeUpper.
    rewrite join_splitRest. unfold isAsciiText in *.
    rewrite allChars_append. simpl in Hascii.
    apply andb_prop in Hascii as [Hc Hs]. simpl. rewrite Hc. simpl.
    by apply allChars_underscored. }
  split; (apply allChars_mapChars_ascii; [|exact Hjoin]).
  - apply upperChar_ascii.
  - apply lowerChar_ascii.
Qed.

Lemma camelToSnakeCase_case_witness :
  allChars (fun c => negb (Text.isLower c)) (createOperationName "getAuthorById")
  = true
  /\ allChars (fun c => negb (Text.isUpper c))
       (camelToSnakeCase "getAuthorById" false) = true
  /\ isAsciiText (createOperationName "getAuthorById") = true
  /\ isAsciiText (camelToSnakeCase "getAuthorById" false) = true.
Proof. apply (camelToSnakeCase_case "getAuthorById"). reflexivity. Defined.

(** * [getComplex] *)

(** X13: [getComplex] gives nothing, and no error, for a name that is not
    a registered complex name; for a registered one it gives what the
    factory kept for that name returns when called with it, failure
    included.  For a name that is neither a registered simple name nor
    selected as complex, [add] is [getComplex] followed by [addComplex]
    of its result. *)
Theorem getComplex_then_addComplex this f :
  (f ∉ originComplexKeys this -> getComplex f this = Ok None)
  /\ (forall builderInit,
        originComplexGet f this = Some builderInit ->
        getComplex f this = (child <-! builderInit f ;; Ok (Some child)))
  /\ (f ∉ originSimple this -> f ∉ JsMap.keys (_complex this) ->
      add [f] this = (r <-! getComplex f this ;; Ok (addComplex r this))).
Proof.
  split; [|split].
  - intros Hk. unfold getComplex, originComplexGet.
    unfold originComplexKeys in Hk.
    destruct (_originComplex this) as [oc|]; [|done].
    apply get_None in Hk. by rewrite Hk.
  - intros init H. unfold getComplex. by rewrite H.
  - intros Hs Hc. unfold add. rewrite groupFields_filter.
    cbn [groupCOMPLEX groupSIMPLE List.filter].
    unfold classify, getComplex. apply map_has_false in Hc. rewrite Hc.
    assert (originSimpleHas f this = false) as ->.
    { destruct (originSimpleHas f this) eqn:E; [|done].
      by apply originSimpleHas_elem in E. }
    destruct (originComplexHas f this) eqn:E.
    + assert (is_Some (originComplexGet f this)) as [init Hinit].
      { apply originComplexHas_keys in E.
        unfold originComplexKeys, originComplexGet in *.
        destruct (_originComplex this) as [oc|]; [by apply get_is_Some|].
        by apply elem_of_nil in E. }
      cbn [negb isKey forEach fold_left]. rewrite Hinit.
      unfold attachNew, rbind. by destruct (init f).
    + cbn [isKey forEach fold_left rbind].
      assert (originComplexGet f this = None) as ->; [|done].
      unfold originComplexGet, originComplexHas in *.
      destruct (_originComplex this) as [oc|]; [|done].
      apply get_None. by apply map_has_false.
Qed.

Lemma getComplex_then_addComplex_witness :
  getComplex "isbn" authorNode = Ok None
  /\ add ["books"] authorNode
     = (r <-! getComplex "books" authorNode ;; Ok (addComplex r authorNode)).
Proof.
  destruct (getComplex_then_addComplex authorNode "isbn") as (Hnone & _).
  destruct (getComplex_then_addComplex authorNode "books") as (_ & _ & Hadd).
  split; [apply Hnone|apply Hadd]; compute_done.
Defined.

(** * The example builders *)

(** X14: the three builders of [examples/index.ts] construct a node for
    every entry name and every list of initial fields, and its constants
    are: the default author selection, the author with the publishers of
    its books, the nameless author with one level of nested defaults,
    and the query script built from it. *)
Theorem examples_evaluate nm init :
  (exists this, PublisherSchemaBuilder nm init = Ok this)
  /\ (exists this, BookSchemaBuilder nm init = Ok this)
  /\ (exists this, AuthorSchemaBuilder nm init = Ok this)
  /\ authorDefault = Ok "author {id name}"
  /\ authorWithPublishers = Ok "author {books {publisher {name address}}}"
  /\ (b <-! authorWithSimpleTree ;; Ok (build true b))
     = Ok " {id name books {title}}"
  /\ queryScript
     = Ok "query GET_AUTHOR  { getAuthor {id name books {title}} }".
Proof.
  assert (forall nm init, exists this, PublisherSchemaBuilder nm init = Ok this)
    as Hpublisher.
  { intros. apply constructor_total. by intros k b ?%elem_of_nil. }
  assert (forall nm init, exists this, BookSchemaBuilder nm init = Ok this)
    as Hbook.
  { intros. apply constructor_total. intros k b Hin.
    apply list_elem_of_singleton in Hin. injection Hin as -> ->.
    apply Hpublisher. }
  split; [apply Hpublisher|]. split; [apply Hbook|].
  split; [|by repeat split].
  apply constructor_total. intros k b Hin.
  apply list_elem_of_singleton in Hin. injection Hin as -> ->.
  apply Hbook.
Qed.

(** * The entry name *)

(** X15: after any calls on a constructed node, [build()] is the name
    given to the constructor, one space, and [build(false)]; so a node
    constructed with the name [null] builds to the text [null] and a
    space before its braces, and one constructed with the default empty
    name to a leading space. *)
Theorem build_entry_name sf nm init cx this0 ops this :
  constructor sf nm init cx = Ok this0 ->
  run ops this0 = Ok this ->
  build true this
  = match nm with
    | Some s => s
    | None => "null"
    end +:+ " " +:+ build false this.
Proof.
  intros Hnew Hrun.
  apply constructor_registry in Hnew as (Hn0 & _).
  apply run_registry in Hrun as (Hn & _).
  unfold build. rewrite <- Hn, <- Hn0. simpl name. unfold nameText.
  by rewrite append_assoc.
Qed.

Lemma build_entry_name_witness :
  build true (withComplex [("books", "books {title}")] nullAuthorNode)
  = "null" +:+ " "
    +:+ build false (withComplex [("books", "books {title}")] nullAuthorNode).
Proof.
  apply (build_entry_name ["id"; "name"; "books"] None []
           [("books", fun e => BookSchemaBuilder (Some e) [])] nullAuthorNode
           [OpAdd ["books"]]); reflexivity.
Defined.
